(** * apparatus-microfrontend-vite: the [mfe:css] plugin and its runtime

    A shallow embedding of
    - [dispatch] (the Style Dispatcher injected into chunks, both versions of
      [plugin.ts]) and [getStyle] ([src/index.ts]), over an explicit model of
      the page: the registry objects stored on [window], the listeners of the
      two event channels, and the style elements;
    - [transform] and [generateBundle] of the [mfe:css] plugin, over a model
      of the JavaScript string operations they use ([String.prototype.replace],
      [replaceAll], [trim], [endsWith], regular expressions of the shapes the
      plugin writes, template literals).

    JavaScript strings are modelled as [string]: one [ascii] per code unit, so
    the model covers strings whose code units are below 256. *)

From Stdlib Require Import Ascii String NArith Bool Sorted DecimalString.
From stdpp Require Import base decidable option list strings gmap.

#[global] Arguments String.append !_ _ / : simpl nomatch.
#[local] Set Warnings "-clear-no-such-hyp".

(** ** JavaScript values used by the plugin *)

Module JS.

(** The line feed, which a Rocq string literal cannot hold as an escape. *)
Definition LF : string := String "010" EmptyString.

(** The double quote. [dquoted] turns every single quote of a literal into a
    double quote, so that texts holding double quotes stay readable. *)
Definition DQ : ascii := "034".

Fixpoint dquoted (s : string) : string :=
  match s with
  | EmptyString => EmptyString
  | String c s' => String (if decide (c = "'"%char) then DQ else c) (dquoted s')
  end.

(** [Array.prototype.join(sep)] on an array of strings. *)
Fixpoint join (sep : string) (l : list string) : string :=
  match l with
  | [] => ""
  | [x] => x
  | x :: l' => x +:+ sep +:+ join sep l'
  end.

(** *** Property keys

    An array index is a property key that is the canonical decimal form of an
    integer in the range 0 .. 2^32 - 2 (ECMA-262, 6.1.7). *)

Definition digit_of (c : ascii) : option N :=
  let n := N_of_ascii c in
  if ((48 <=? n) && (n <=? 57))%N then Some (n - 48)%N else None.

Fixpoint digits_value (acc : N) (s : string) : option N :=
  match s with
  | EmptyString => Some acc
  | String c s' =>
      match digit_of c with
      | Some d => digits_value (10 * acc + d)%N s'
      | None => None
      end
  end.

Definition array_index (k : string) : option N :=
  match k with
  | EmptyString => None
  | String c rest =>
      if decide (c = "0"%char) then
        match rest with EmptyString => Some 0%N | _ => None end
      else
        match digits_value 0 k with
        | Some n => if (n <? 2 ^ 32 - 1)%N then Some n else None
        | None => None
        end
  end.

(** *** Ordinary objects with string-valued properties

    An object is the list of its own properties in creation order. Keys are
    unique. [OrdinaryOwnPropertyKeys] (ECMA-262, 10.1.11.1) lists the array
    indices first, in ascending numeric order, then the other string keys in
    creation order; [js_order] is that order, on any list of things that have
    a key. *)

Abbreviation jsobj := (list (string * string)).

Fixpoint insert_index {A} (n : N) (x : A) (l : list (N * A)) : list (N * A) :=
  match l with
  | [] => [(n, x)]
  | (m, y) :: l' =>
      if (n <? m)%N then (n, x) :: (m, y) :: l' else (m, y) :: insert_index n x l'
  end.

Definition index_sorted {A} (key : A → string) (l : list A) : list (N * A) :=
  foldr (λ x acc, match array_index (key x) with
                  | Some n => insert_index n x acc
                  | None => acc
                  end) [] l.

Definition js_order {A} (key : A → string) (l : list A) : list A :=
  (index_sorted key l).*2 ++ filter (λ x, array_index (key x) = None) l.

Definition Object_keys (o : jsobj) : list string := (js_order fst o).*1.
Definition Object_values (o : jsobj) : list string := (js_order fst o).*2.

(** [o[k]] for reading. *)
Fixpoint js_get (o : jsobj) (k : string) : option string :=
  match o with
  | [] => None
  | (k', v) :: o' => if decide (k = k') then Some v else js_get o' k
  end.

(** [CreateDataProperty] or update in place: an existing key keeps its
    position, a new key goes last in creation order. *)
Fixpoint js_put (k v : string) (o : jsobj) : jsobj :=
  match o with
  | [] => [(k, v)]
  | (k', v') :: o' =>
      if decide (k = k') then (k, v) :: o' else (k', v') :: js_put k v o'
  end.

(** [o[k] = v] on an object created by [{}] whose values are strings. The
    key [__proto__] reaches the setter inherited from [Object.prototype],
    which ignores a value that is neither an object nor null (ECMA-262,
    20.1.3.8.2): no own property is created. *)
Definition js_set (k v : string) (o : jsobj) : jsobj :=
  if decide (k = "__proto__") then o else js_put k v o.

(** *** String methods *)

(** [s.startsWith(pre)], returning what follows the prefix. *)
Fixpoint strip_prefix (pre s : string) : option string :=
  match pre with
  | EmptyString => Some s
  | String c pre' =>
      match s with
      | EmptyString => None
      | String d s' => if decide (c = d) then strip_prefix pre' s' else None
      end
  end.

(** [s.endsWith(suf)]. *)
Fixpoint endsWith (s suf : string) : bool :=
  if decide (s = suf) then true
  else match s with
       | EmptyString => false
       | String _ s' => endsWith s' suf
       end.

(** [s.indexOf(pat)]. *)
Fixpoint indexOf (pat s : string) : option nat :=
  match strip_prefix pat s with
  | Some _ => Some 0
  | None =>
      match s with
      | EmptyString => None
      | String _ s' => S <$> indexOf pat s'
      end
  end.

(** White space and line terminators below 256: TAB, LF, VT, FF, CR, SP and
    NBSP (ECMA-262, 12.2 and 12.3). *)
Definition is_white_space (c : ascii) : bool :=
  let n := N_of_ascii c in
  ((9 <=? n) && (n <=? 13) || (n =? 32) || (n =? 160))%N.

Definition is_line_terminator (c : ascii) : bool :=
  let n := N_of_ascii c in ((n =? 10) || (n =? 13))%N.

Fixpoint trimStart (s : string) : string :=
  match s with
  | EmptyString => EmptyString
  | String c s' => if is_white_space c then trimStart s' else s
  end.

Fixpoint trimEnd (s : string) : string :=
  match s with
  | EmptyString => EmptyString
  | String c s' =>
      match trimEnd s' with
      | EmptyString => if is_white_space c then EmptyString else String c EmptyString
      | t => String c t
      end
  end.

Definition trim (s : string) : string := trimEnd (trimStart s).

(** [GetSubstitution] (ECMA-262, 22.1.3.19.1) for a match without capture
    groups: in the replacement text, [$$] is a dollar, [$&] the matched text,
    [$`] the text before the match and [$'] the text after it; any other
    dollar stands for itself. *)
Fixpoint GetSubstitution (matched before after template : string) : string :=
  match template with
  | EmptyString => EmptyString
  | String c t =>
      if decide (c = "$"%char) then
        match t with
        | EmptyString => String c EmptyString
        | String d t' =>
            if decide (d = "$"%char) then
              String "$" (GetSubstitution matched before after t')
            else if decide (d = "&"%char) then
              matched +:+ GetSubstitution matched before after t'
            else if decide (d = "`"%char) then
              before +:+ GetSubstitution matched before after t'
            else if decide (d = "'"%char) then
              after +:+ GetSubstitution matched before after t'
            else String c (GetSubstitution matched before after t)
        end
      else String c (GetSubstitution matched before after t)
  end.

(** A replacement text in which no dollar starts one of the four patterns:
    [GetSubstitution] leaves it as it is. *)
Fixpoint substitution_free (template : string) : bool :=
  match template with
  | EmptyString => true
  | String c t =>
      match t with
      | String d _ =>
          negb (bool_decide (c = "$"%char)
                && (bool_decide (d = "$"%char) || bool_decide (d = "&"%char)
                    || bool_decide (d = "`"%char) || bool_decide (d = "'"%char)))
          && substitution_free t
      | EmptyString => true
      end
  end.

(** An argument text that [.+?\)] matches whole: not empty, without line
    terminator and without closing parenthesis. *)
Fixpoint no_paren (s : string) : bool :=
  match s with
  | EmptyString => true
  | String c s' =>
      negb (is_line_terminator c) && negb (bool_decide (c = ")"%char)) && no_paren s'
  end.

Definition plain_args (s : string) : bool :=
  negb (bool_decide (s = EmptyString)) && no_paren s.

(** *** Regular expressions of the plugin

    The plugin's patterns are sequences of literal texts and of [.+] (greedy)
    or [.+?] (lazy), where [.] is any character but a line terminator. The
    matcher backtracks in the order of ECMA-262, 22.2.2: a greedy [.+] tries
    the longest run first, a lazy one the shortest. A match is the matched
    text and the text after it. *)

Inductive re_item :=
  | Lit (s : string)
  | AnyPlus (greedy : bool).

Abbreviation regex := (list re_item).
Abbreviation re_match := (string * string)%type.

Definition consumed (c : ascii) (r : option re_match) : option re_match :=
  match r with
  | Some (m, rest) => Some (String c m, rest)
  | None => None
  end.

Fixpoint any_plus_lazy (k : string → option re_match) (s : string) : option re_match :=
  match s with
  | EmptyString => None
  | String c s' =>
      if is_line_terminator c then None
      else match k s' with
           | Some r => consumed c (Some r)
           | None => consumed c (any_plus_lazy k s')
           end
  end.

Fixpoint any_plus_greedy (k : string → option re_match) (s : string) : option re_match :=
  match s with
  | EmptyString => None
  | String c s' =>
      if is_line_terminator c then None
      else match any_plus_greedy k s' with
           | Some r => consumed c (Some r)
           | None => consumed c (k s')
           end
  end.

Fixpoint match_here (re : regex) (s : string) : option re_match :=
  match re with
  | [] => Some (EmptyString, s)
  | Lit l :: re' =>
      match strip_prefix l s with
      | Some s' =>
          match match_here re' s' with
          | Some (m, rest) => Some (l +:+ m, rest)
          | None => None
          end
      | None => None
      end
  | AnyPlus true :: re' => any_plus_greedy (match_here re') s
  | AnyPlus false :: re' => any_plus_lazy (match_here re') s
  end.

(** The leftmost match: the text before it, the matched text, the text
    after it. *)
Fixpoint search (re : regex) (before s : string) : option (string * string * string) :=
  match match_here re s with
  | Some (m, rest) => Some (before, m, rest)
  | None =>
      match s with
      | EmptyString => None
      | String c s' => search re (before +:+ String c EmptyString) s'
      end
  end.

(** [s.replace(re, replacement)] for a pattern without the [g] flag: the
    leftmost match only. *)
Definition replace_re (re : regex) (replacement s : string) : string :=
  match search re EmptyString s with
  | Some (before, m, rest) =>
      before +:+ GetSubstitution m before rest replacement +:+ rest
  | None => s
  end.

(** [s.replaceAll(re, replacement)] for a pattern with the [g] flag: every
    match, left to right, each search starting where the last match ended.
    [skip] counts the characters of the current match still to pass over. *)
Fixpoint replaceAll_go (re : regex) (replacement before : string) (skip : nat)
    (s : string) : string :=
  match s with
  | EmptyString => EmptyString
  | String c s' =>
      let before' := before +:+ String c EmptyString in
      match skip with
      | S n => replaceAll_go re replacement before' n s'
      | O =>
          match match_here re s with
          | Some (m, rest) =>
              GetSubstitution m before rest replacement +:+
              match String.length m with
              | O => String c (replaceAll_go re replacement before' 0 s')
              | S n => replaceAll_go re replacement before' n s'
              end
          | None => String c (replaceAll_go re replacement before' 0 s')
          end
      end
  end.

Definition replaceAll_re (re : regex) (replacement s : string) : string :=
  replaceAll_go re replacement EmptyString 0 s.

(** [s.replace(pat, replacement)] and [s.replaceAll(pat, replacement)] for a
    pattern that is a non-empty string. *)
Definition replace_str (pat replacement s : string) : string :=
  replace_re [Lit pat] replacement s.
Definition replaceAll_str (pat replacement s : string) : string :=
  replaceAll_re [Lit pat] replacement s.

(** *** Template literals

    The value of the template literal [`body`] when it is a literal without
    substitutions (ECMA-262, 13.2.8.3, the TV of a NoSubstitutionTemplate):
    [None] when [body] does not lie within one such literal (an unescaped
    backtick ends the literal before the end of [body], a [${] opens a
    substitution, a backslash ends [body]), and for the escapes left out of
    this model (digits, [\x], [\u], a backslash before a carriage return). *)

Definition escape_value (c : ascii) : option string :=
  let one (a : ascii) := Some (String a EmptyString) in
  if decide (c = "n"%char) then one "010"%char
  else if decide (c = "t"%char) then one "009"%char
  else if decide (c = "r"%char) then one "013"%char
  else if decide (c = "b"%char) then one "008"%char
  else if decide (c = "f"%char) then one "012"%char
  else if decide (c = "v"%char) then one "011"%char
  else if decide (c = "010"%char) then Some EmptyString
  else if decide (c = "013"%char) then None
  else if decide (c = "x"%char) then None
  else if decide (c = "u"%char) then None
  else match digit_of c with
       | Some _ => None
       | None => one c
       end.

Fixpoint template_value (body : string) : option string :=
  match body with
  | EmptyString => Some EmptyString
  | String c rest =>
      if decide (c = "`"%char) then None
      else if decide (c = "\"%char) then
        match rest with
        | EmptyString => None
        | String d rest' =>
            match escape_value d, template_value rest' with
            | Some v, Some t => Some (v +:+ t)
            | _, _ => None
            end
        end
      else if decide (c = "$"%char) then
        match rest with
        | String d _ =>
            if decide (d = "{"%char) then None
            else String c <$> template_value rest
        | EmptyString => Some (String c EmptyString)
        end
      else if decide (c = "013"%char) then
        match rest with
        | String d rest' =>
            if decide (d = "010"%char) then String "010" <$> template_value rest'
            else String "010" <$> template_value rest
        | EmptyString => Some (String "010" EmptyString)
        end
      else String c <$> template_value rest
  end.

End JS.

(** ** The page: registries, listeners, style elements *)

Module Runtime.
Import JS.

(** An event dispatched on [window]: its type and, for a [CustomEvent] with
    a detail, the detail. *)
Abbreviation event := (string * option string)%type.

(** The page state that [dispatch] and [getStyle] read and write.
    - [heap]: the registry objects allocated by [dispatch]; a reference is an
      index. The object stored in [window] and the one captured by the
      listener that [dispatch] registers are the same reference.
    - [window]: the properties [window[`${mfe}-styles`]].
    - [request_listeners]: the listeners added by [dispatch], in order of
      registration: the event type, and the closure's captured [mfe] and
      [styles] reference.
    - [style_listeners]: the listeners added by [getStyle]: the event type
      and the style element the closure's [WeakRef] points to.
    - [elements]: the text content of each style element created so far.
    - [log]: every event dispatched on [window], oldest first. *)
Record page := Page {
  heap : list jsobj;
  window : gmap string nat;
  request_listeners : list (string * (string * nat));
  style_listeners : list (string * nat);
  elements : list string;
  log : list event
}.

Definition init_page : page := Page [] ∅ [] [] [] [].

Definition set_heap (f : list jsobj → list jsobj) (p : page) : page :=
  Page (f (heap p)) (window p) (request_listeners p) (style_listeners p)
       (elements p) (log p).
Definition set_window (f : gmap string nat → gmap string nat) (p : page) : page :=
  Page (heap p) (f (window p)) (request_listeners p) (style_listeners p)
       (elements p) (log p).
Definition set_elements (f : list string → list string) (p : page) : page :=
  Page (heap p) (window p) (request_listeners p) (style_listeners p)
       (f (elements p)) (log p).
Definition log_event (e : event) (p : page) : page :=
  Page (heap p) (window p) (request_listeners p) (style_listeners p)
       (elements p) (log p ++ [e]).
Definition add_request_listener (type mfe : string) (styles : nat) (p : page) : page :=
  Page (heap p) (window p) (request_listeners p ++ [(type, (mfe, styles))])
       (style_listeners p) (elements p) (log p).
Definition add_style_listener (type : string) (el : nat) (p : page) : page :=
  Page (heap p) (window p) (request_listeners p)
       (style_listeners p ++ [(type, el)]) (elements p) (log p).

Definition styles_key (mfe : string) : string := mfe +:+ "-styles".
Definition styles_event (mfe : string) : string := mfe +:+ "-styles".
Definition request_event (mfe : string) : string := mfe +:+ "-styles-request".

(** [ref.deref()?.replaceChildren(e.detail)]: the element's content becomes
    the detail. Reclamation of elements is not modelled: every element that
    was created is still there. *)
Definition replaceChildren (el : nat) (detail : string) (p : page) : page :=
  set_elements (<[el := detail]>) p.

Section Dispatcher.

(** The two versions of [plugin.ts] differ in the separator of
    [Object.values(styles).join(sep)]: the empty string and the line feed. *)
Variable sep : string.

(** [dispatchEvent(new CustomEvent(type, { detail }))] for a styles event:
    the listeners of that type, which are [getStyle]'s, run in order of
    registration. *)
Definition dispatchEvent_styles (type detail : string) (p : page) : page :=
  foldl (λ q '(t, el), if decide (t = type) then replaceChildren el detail q else q)
        (log_event (type, Some detail) p) (style_listeners p).

(** The closure [() => dispatchEvent(event())] of [dispatch], with
    [event = () => new CustomEvent(`${mfe}-styles`,
                       { detail: Object.values(styles).join(sep) })]:
    it reads the captured object when it runs. *)
Definition reemit (mfe : string) (styles : nat) (p : page) : page :=
  dispatchEvent_styles (styles_event mfe)
    (join sep (Object_values (default [] (heap p !! styles)))) p.

(** [dispatchEvent(new Event(type))] for a request event: the listeners of
    that type, which are [dispatch]'s closures, run in order of registration. *)
Definition dispatchEvent_request (type : string) (p : page) : page :=
  foldl (λ q '(t, (mfe, styles)), if decide (t = type) then reemit mfe styles q else q)
        (log_event (type, None) p) (request_listeners p).

(** [dispatch], with [mfe] the value of [import.meta.env.MFE] (first version)
    or its first argument [name] (second version):
<<
    const setup = !window[`${mfe}-styles`]
    const styles = (window[`${mfe}-styles`] ??= {})
    styles[id] = style
    const event = () => new CustomEvent(`${mfe}-styles`, { detail: Object.values(styles).join('') })
    if (setup) addEventListener(`${mfe}-styles-request`, () => dispatchEvent(event()))
    dispatchEvent(new Event(`${mfe}-styles-request`))
>> *)
Definition dispatch (mfe id style : string) (p : page) : page :=
  let setup := bool_decide (window p !! styles_key mfe = None) in
  let '(styles, p1) :=
    match window p !! styles_key mfe with
    | Some r => (r, p)
    | None =>
        let r := length (heap p) in
        (r, set_window (<[styles_key mfe := r]>) (set_heap (λ h, h ++ [[]]) p))
    end in
  let p2 := set_heap (alter (js_set id style) styles) p1 in
  let p3 := if setup then add_request_listener (request_event mfe) mfe styles p2 else p2 in
  dispatchEvent_request (request_event mfe) p3.

(** The first five lines of [dispatch]: the page before the request event
    is dispatched. *)
Definition dispatch_store (mfe id style : string) (p : page) : page :=
  let setup := bool_decide (window p !! styles_key mfe = None) in
  let '(styles, p1) :=
    match window p !! styles_key mfe with
    | Some r => (r, p)
    | None =>
        let r := length (heap p) in
        (r, set_window (<[styles_key mfe := r]>) (set_heap (λ h, h ++ [[]]) p))
    end in
  let p2 := set_heap (alter (js_set id style) styles) p1 in
  if setup then add_request_listener (request_event mfe) mfe styles p2 else p2.

(** [getStyle], with [mfe] the value of [getMfe()]:
<<
    const style = document.createElement('style')
    ...
    addEventListener(`${getMfe()}-styles`, e => ref.deref()?.replaceChildren(e.detail), { signal })
    dispatchEvent(new CustomEvent(`${getMfe()}-styles-request`))
    return style
>> *)
Definition getStyle (mfe : string) (p : page) : nat * page :=
  let style := length (elements p) in
  let p1 := set_elements (λ els, els ++ [""]) p in
  let p2 := add_style_listener (styles_event mfe) style p1 in
  (style, dispatchEvent_request (request_event mfe) p2).

(** What scripts do to the page: a chunk or a hot update calls [dispatch], a
    microfrontend mounts and calls [getStyle]. *)
Inductive op :=
  | Dispatch (mfe id style : string)
  | GetStyle (mfe : string).

Definition step (p : page) (o : op) : page :=
  match o with
  | Dispatch mfe id style => dispatch mfe id style p
  | GetStyle mfe => (getStyle mfe p).2
  end.

Definition run (h : list op) : page := foldl step init_page h.

(** The registry object of [mfe], when [window] has one. *)
Definition registry_of (mfe : string) (p : page) : option jsobj :=
  window p !! styles_key mfe ≫= λ r, heap p !! r.

(** The aggregate that a styles event of [mfe] would carry now; a missing
    registry is an empty style set. *)
Definition aggregate (mfe : string) (p : page) : string :=
  join sep (Object_values (default [] (registry_of mfe p))).

(** *** Invariants of the pages that scripts reach

    Registries: every reference of [window] is allocated, no two properties
    hold the same object, and the request listeners are exactly one closure
    for each registry, over that registry's object. *)
Record wf_registry (p : page) : Prop := {
  wf_window_valid : ∀ k r, window p !! k = Some r → r < length (heap p);
  wf_window_inj : ∀ k1 k2 r,
    window p !! k1 = Some r → window p !! k2 = Some r → k1 = k2;
  wf_request_nodup : NoDup (request_listeners p).*1;
  wf_request_sound : ∀ t m r,
    (t, (m, r)) ∈ request_listeners p →
    t = request_event m ∧ window p !! styles_key m = Some r;
  wf_request_complete : ∀ m r,
    window p !! styles_key m = Some r →
    (request_event m, (m, r)) ∈ request_listeners p
}.

(** Style elements: each has one listener, and its content is the aggregate
    of the identity it listens to. *)
Record wf_styles (p : page) : Prop := {
  wf_style_nodup : NoDup (style_listeners p).*2;
  wf_style_valid : ∀ t el, (t, el) ∈ style_listeners p → el < length (elements p);
  wf_style_content : ∀ m el,
    (styles_event m, el) ∈ style_listeners p →
    elements p !! el = Some (aggregate m p)
}.

End Dispatcher.

(** The dispatcher of the current [plugin.ts] and the one of its previous
    version. *)
Definition dispatch_mfe := dispatch "".
Definition dispatch_name := dispatch LF.

End Runtime.

(** ** The [mfe:css] plugin *)

Module Plugin.
Import JS.

(** *** [transform] *)

Definition re_updateStyle : regex :=
  [Lit "__vite__updateStyle("; AnyPlus false; Lit ")"].
Definition re_removeStyle : regex :=
  [Lit "__vite__removeStyle("; AnyPlus false; Lit ")"].

Section Transform.

(** [`${dispatch}`]: the source text of the dispatcher function, as
    [Function.prototype.toString] gives it in the built plugin. *)
Variable dispatch_src : string.

Definition update_replacement : string :=
  ";(" +:+ dispatch_src +:+ ")(__vite__id,__vite__css)".
Definition remove_replacement : string :=
  "(" +:+ dispatch_src +:+ ")(__vite__id,'')".

(** Both versions of [transform]: the two replacements, one after the
    other. *)
Definition transform_with (update_repl remove_repl code : string) : string :=
  replace_re re_removeStyle remove_repl (replace_re re_updateStyle update_repl code).

(** [transform] of the current version:
<<
    code.replace(/__vite__updateStyle\(.+?\)/, `;(${dispatch})(__vite__id,__vite__css)`)
        .replace(/__vite__removeStyle\(.+?\)/, `(${dispatch})(__vite__id,'')`)
>> *)
Definition transform (code : string) : string :=
  transform_with update_replacement remove_replacement code.

(** [transform] of the previous version, which passes the plugin's [name]. *)
Definition update_replacement_name (name : string) : string :=
  ";(" +:+ dispatch_src +:+ ")(`" +:+ name +:+ "`,__vite__id,__vite__css)".
Definition remove_replacement_name (name : string) : string :=
  "(" +:+ dispatch_src +:+ ")(`" +:+ name +:+ "`,__vite__id,'')".

Definition transform_name (name code : string) : string :=
  transform_with (update_replacement_name name) (remove_replacement_name name) code.

End Transform.

(** *** The calls that [transform] writes, read as code

    A call [(callee)(arg, ...)] whose callee is the text of a function
    expression and whose arguments are identifiers of the module or string
    literals. [print_call] is its text and [parse_call] reads it back from a
    text. [eval_dispatch_call] runs a call in a module scope [env] that binds
    identifiers to strings: the one function expression whose text the model
    evaluates is the dispatcher's own, [`${dispatch}`], which denotes
    [Runtime.dispatch]; [mfe] is the value that [define] gives
    [import.meta.env.MFE] in that text. A call of any other callee text, or
    with another number of arguments, is not evaluated: [None]. *)

Inductive arg :=
  | Ident (x : string)
  | StringLit (s : string).

Record call := Call { callee : string; args : list arg }.

Definition print_arg (a : arg) : string :=
  match a with
  | Ident x => x
  | StringLit s => "'" +:+ s +:+ "'"
  end.

Definition print_call (c : call) : string :=
  "(" +:+ callee c +:+ ")(" +:+ join "," (print_arg <$> args c) +:+ ")".

Definition update_call (dispatch_src : string) : call :=
  Call dispatch_src [Ident "__vite__id"; Ident "__vite__css"].
Definition remove_call (dispatch_src : string) : call :=
  Call dispatch_src [Ident "__vite__id"; StringLit ""].

Definition eval_arg (env : gmap string string) (a : arg) : option string :=
  match a with
  | Ident x => env !! x
  | StringLit s => Some s
  end.

Definition eval_callee (sep mfe dispatch_src callee : string) :
    option (string → string → Runtime.page → Runtime.page) :=
  if decide (callee = dispatch_src) then Some (Runtime.dispatch sep mfe) else None.

Definition eval_dispatch_call (sep mfe dispatch_src : string)
    (env : gmap string string) (c : call) (p : Runtime.page) :
    option Runtime.page :=
  f ← eval_callee sep mfe dispatch_src (callee c);
  match args c with
  | [a1; a2] =>
      id ← eval_arg env a1;
      style ← eval_arg env a2;
      Some (f id style p)
  | _ => None
  end.

(** The text of an argument, read back: an identifier (letters, digits,
    [_] and [$], no digit first), or a string literal in single quotes
    without quote, backslash and line terminator inside; white space around
    it is dropped. *)
Definition is_ident_char (c : ascii) : bool :=
  let n := N_of_ascii c in
  ((97 <=? n) && (n <=? 122) || (65 <=? n) && (n <=? 90)
   || (48 <=? n) && (n <=? 57) || (n =? 95) || (n =? 36))%N.

Fixpoint all_ident_chars (s : string) : bool :=
  match s with
  | EmptyString => true
  | String c s' => is_ident_char c && all_ident_chars s'
  end.

Fixpoint quoted_body (s : string) : option string :=
  match s with
  | EmptyString => None
  | String c s' =>
      if decide (c = "'"%char) then
        match s' with EmptyString => Some EmptyString | _ => None end
      else if is_line_terminator c || bool_decide (c = "\"%char) then None
      else String c <$> quoted_body s'
  end.

Definition parse_arg (text : string) : option arg :=
  match trim text with
  | EmptyString => None
  | String c rest =>
      if decide (c = "'"%char) then StringLit <$> quoted_body rest
      else if all_ident_chars (String c rest) && negb (bool_decide (is_Some (digit_of c)))
      then Some (Ident (String c rest))
      else None
  end.

(** The texts between the commas of an argument list. *)
Fixpoint split_commas (current s : string) : list string :=
  match s with
  | EmptyString => [current]
  | String c s' =>
      if decide (c = ","%char) then current :: split_commas EmptyString s'
      else split_commas (current +:+ String c EmptyString) s'
  end.

(** The text before a closing parenthesis that ends the text. *)
Fixpoint before_closing (s : string) : option string :=
  match s with
  | EmptyString => None
  | String c s' =>
      match s' with
      | EmptyString => if decide (c = ")"%char) then Some EmptyString else None
      | _ => String c <$> before_closing s'
      end
  end.

(** A text [(callee)(arg,...)] with the given callee text, read as a call. *)
Definition parse_call (callee text : string) : option call :=
  rest ← strip_prefix ("(" +:+ callee +:+ ")(") text;
  body ← before_closing rest;
  args ← mapM parse_arg (split_commas EmptyString body);
  Some (Call callee args).


Definition eval_call_text (sep mfe dispatch_src : string)
    (env : gmap string string) (text : string) (p : Runtime.page) :
    option Runtime.page :=
  c ← parse_call dispatch_src text;
  eval_dispatch_call sep mfe dispatch_src env c p.

(** *** [generateBundle] *)

(** The [source] of an asset, [string | Uint8Array]: a string, or an array
    of bytes, of which the model keeps the text that its [toString()]
    returns. An array of bytes has no [replaceAll]. *)
Inductive asset_source :=
  | Text (s : string)
  | Binary (toString : string).

Definition source_toString (source : asset_source) : string :=
  match source with
  | Text s => s
  | Binary t => t
  end.

(** A value of the output bundle, [Object.values(bundle)] being the list of
    them: an asset with its source, or a chunk with its [name], [code]
    and [viteMetadata?.importedCss]. *)
Inductive output :=
  | OutputAsset (fileName : string) (source : asset_source)
  | OutputChunk (fileName name code : string) (viteMetadata : option (gset string)).

Definition fileName (o : output) : string :=
  match o with
  | OutputAsset f _ => f
  | OutputChunk f _ _ _ => f
  end.

(** [/<link.+href="\.\/.+\.css">/g] *)
Definition re_link : regex :=
  [Lit "<link"; AnyPlus true; Lit (dquoted "href='./"); AnyPlus true;
   Lit (dquoted ".css'>")].

(** [(h.source as string).replaceAll(/<link.+href="\.\/.+\.css">/g, '')] *)
Definition strip_links (source : string) : string :=
  replaceAll_re re_link "" source.

(** [source.toString().trim().replaceAll('`', '\\`')] *)
Definition escape_css (source : string) : string :=
  replaceAll_str "`" "\`" (trim source).

(** [h.source = (h.source as string).replaceAll(...)] on a value of the
    [html] list. On an asset whose source is an array of bytes, [replaceAll]
    is undefined, and on a chunk [h.source] is: the call throws a TypeError,
    [None]. *)
Definition rewrite_html (o : output) : option output :=
  match o with
  | OutputAsset f (Text source) => Some (OutputAsset f (Text (strip_links source)))
  | OutputAsset _ (Binary _) => None
  | OutputChunk _ _ _ _ => None
  end.

(** [source.toString()] on a value of the [css] list. On a chunk, [source]
    is undefined and [toString] throws a TypeError: [None]. *)
Definition css_source (o : output) : option string :=
  match o with
  | OutputAsset _ source => Some (source_toString source)
  | OutputChunk _ _ _ _ => None
  end.

(** The casts of [generateBundle] ([as OutputAsset[]], [h.source as string])
    hold: the values named [*.html] are assets whose source is a string, and
    the values named [*.css] are assets. *)
Definition is_asset (o : output) : Prop :=
  match o with
  | OutputAsset _ _ => True
  | OutputChunk _ _ _ _ => False
  end.

Definition is_text_asset (o : output) : Prop :=
  match o with
  | OutputAsset _ (Text _) => True
  | _ => False
  end.

Definition well_typed (o : output) : Prop :=
  (endsWith (fileName o) ".html" = true → is_text_asset o)
  ∧ (endsWith (fileName o) ".css" = true → is_asset o).

(** [Object.values(bundle).filter(({ fileName }) => fileName.endsWith('.css'))] *)
Definition css_of (bundle : list output) : list output :=
  filter (λ o, endsWith (fileName o) ".css" = true) bundle.

Section GenerateBundle.

(** What differs between the two versions: the separator of the styles of
    one chunk, and the text appended to the chunk's code, given the chunk's
    name and its style. *)
Variable css_sep : string.
Variable appended : string → string → string.

(** The body of [js.forEach(chunk => ...)]. A value without [viteMetadata]
    has no styles. A style that is a chunk has no [source]: [None]. *)
Definition rewrite_chunk (css : list output) (o : output) : option output :=
  match o with
  | OutputChunk f name code (Some importedCss) =>
      let styles := filter (λ c, fileName c ∈ importedCss) css in
      if decide (styles = []) then Some o
      else
        sources ← mapM css_source styles;
        let style := join css_sep (escape_css <$> sources) in
        Some (OutputChunk f name (code +:+ appended name style) (Some ∅))
  | _ => Some o
  end.

Definition generateBundle_with (bundle : list output) : option (list output) :=
  let css := css_of bundle in
  mapM (λ o, if endsWith (fileName o) ".html" then rewrite_html o
             else if endsWith (fileName o) ".js" then rewrite_chunk css o
             else Some o) bundle.

End GenerateBundle.

(** The current version: [dispatchCompiled] is the code of the nested build
    of [`(${dispatch})(args)`].
<<
    chunk.code = `${chunk.code}\n;${dispatchCompiled.replace('(args)', `(\`${chunk.name}\`,\`${style}\`)`)}`
>> *)
Definition appended_compiled (dispatchCompiled name style : string) : string :=
  LF +:+ ";" +:+
  replace_str "(args)" ("(`" +:+ name +:+ "`,`" +:+ style +:+ "`)") dispatchCompiled.

Definition generateBundle (dispatchCompiled : string) :=
  generateBundle_with "" (appended_compiled dispatchCompiled).

(** The hook of the current version awaits the nested build first:
<<
    const dispatchCompiled = ((await build(dispatchConfig)) as RollupOutput).output[0].code
>>
    [built] is its code, or [None] when the nested build, or the reading of
    its configuration from [this.environment], throws: the hook throws
    before it reads the bundle. *)
Definition generateBundle_hook (built : option string) (bundle : list output) :
    option (list output) :=
  dispatchCompiled ← built; generateBundle dispatchCompiled bundle.

(** The previous version:
<<
    chunk.code = `${chunk.code}\n\n;(${dispatch})(\`${name}\`,\`${chunk.name}\`,\`${style}\`)`
>> *)
Definition appended_name (dispatch_src mfe name style : string) : string :=
  LF +:+ LF +:+ ";(" +:+ dispatch_src +:+ ")(`" +:+ mfe +:+ "`,`" +:+ name +:+
  "`,`" +:+ style +:+ "`)".

Definition generateBundle_name (dispatch_src mfe : string) :=
  generateBundle_with LF (appended_name dispatch_src mfe).

End Plugin.

(** ** The registry as the specification words it *)

Module Spec.
Import JS Runtime.

(** The calls of a history, as (fragment id, text) pairs: those of [dispatch]
    for [mfe]. A publish carries its text, a remove the empty text. *)
Definition calls_for (mfe : string) (h : list op) : list (string * string) :=
  omap (λ o, match o with
             | Dispatch m id style => if decide (m = mfe) then Some (id, style) else None
             | GetStyle _ => None
             end) h.

(** The fragment ids in the order of their first write. *)
Definition first_write_order (ids : list string) : list string :=
  foldl (λ acc id, if decide (id ∈ acc) then acc else acc ++ [id]) [] ids.

(** The text last written for a fragment id. *)
Definition latest (cs : list (string * string)) (id : string) : string :=
  foldl (λ acc '(i, style), if decide (i = id) then style else acc) "" cs.

(** The fragment ids that a registry stores: all but [__proto__]. *)
Definition written_ids (cs : list (string * string)) : list string :=
  filter (λ i, i ≠ "__proto__") cs.*1.

(** Concatenation of texts. *)
Definition concat_texts (l : list string) : string := foldr String.append "" l.

(** The aggregate as the specification states it: the latest texts, in
    first-write order of the fragment ids. *)
Definition aggregate_first_write (cs : list (string * string)) : string :=
  concat_texts (latest cs <$> first_write_order cs.*1).

(** The aggregate in the order in which JavaScript lists the properties of
    the registry object: the latest texts of the stored fragment ids, array
    indices first in ascending order, then the other ids in first-write
    order, joined by the separator of the version. *)
Definition aggregate_own_order (sep : string) (cs : list (string * string)) : string :=
  join sep (latest cs <$> js_order id (first_write_order (written_ids cs))).

(** A fragment id that is neither an array index nor [__proto__]. *)
Definition plain_id (i : string) : Prop := array_index i = None ∧ i ≠ "__proto__".

(** The registry that [dispatch] builds from the calls. *)
Definition registry_after (cs : list (string * string)) : jsobj :=
  foldl (λ o '(id, style), js_set id style o) [] cs.

End Spec.

(** ** The plugin's configuration and the package's own build *)

Module Build.
Import JS.

(** A text without line terminator. *)
Definition line_free (s : string) : Prop :=
  Forall (λ c, is_line_terminator c = false) (list_ascii_of_string s).

(** A text without backslash, dollar and carriage return: the characters
    besides the backtick that a template literal does not take as they are. *)
Definition template_plain (s : string) : Prop :=
  Forall (λ c, c ≠ "\"%char ∧ c ≠ "$"%char ∧ c ≠ "013"%char)
         (list_ascii_of_string s).

(** *** [JSON.stringify] of a string, and string literals

    [QuoteJSONString] (ECMA-262, 25.5.2.3) on code units below 256: the
    double quote, the backslash and the control characters are escaped, the
    control characters without a short escape as [\u00xx] in lowercase
    hexadecimal. *)
Definition hex_digit (n : N) : ascii :=
  ascii_of_N (if (n <? 10)%N then 48 + n else 87 + n)%N.

Definition quote_char (c : ascii) : string :=
  let n := N_of_ascii c in
  if decide (c = "008"%char) then "\b"
  else if decide (c = "009"%char) then "\t"
  else if decide (c = "010"%char) then "\n"
  else if decide (c = "012"%char) then "\f"
  else if decide (c = "013"%char) then "\r"
  else if decide (c = DQ) then String "\" (String DQ EmptyString)
  else if decide (c = "\"%char) then "\\"
  else if (n <? 32)%N then
    "\u00" +:+ String (hex_digit (n / 16)) (String (hex_digit (n mod 16)) EmptyString)
  else String c EmptyString.

Fixpoint quote_chars (s : string) : string :=
  match s with
  | EmptyString => EmptyString
  | String c s' => quote_char c +:+ quote_chars s'
  end.

Definition JSON_stringify (s : string) : string :=
  String DQ (quote_chars s +:+ String DQ EmptyString).

(** The value of a string literal in double quotes (ECMA-262, 12.9.4.2, the
    SV of a StringLiteral): [None] when the text is no such literal (no
    closing quote at its end, a quote or a line terminator inside), and for
    what this model leaves out (the escapes that [escape_value] leaves out,
    and a [\uXXXX] of a code unit above 255). *)
Definition hex_value (c : ascii) : option N :=
  let n := N_of_ascii c in
  if ((48 <=? n) && (n <=? 57))%N then Some (n - 48)%N
  else if ((97 <=? n) && (n <=? 102))%N then Some (n - 87)%N
  else if ((65 <=? n) && (n <=? 70))%N then Some (n - 55)%N
  else None.

Definition hex4_value (h1 h2 h3 h4 : ascii) : option N :=
  match hex_value h1, hex_value h2, hex_value h3, hex_value h4 with
  | Some a, Some b, Some c, Some d => Some (((a * 16 + b) * 16 + c) * 16 + d)%N
  | _, _, _, _ => None
  end.

Fixpoint literal_body_value (body : string) : option string :=
  match body with
  | EmptyString => None
  | String c rest =>
      if decide (c = DQ) then
        match rest with EmptyString => Some EmptyString | _ => None end
      else if is_line_terminator c then None
      else if decide (c = "\"%char) then
        match rest with
        | EmptyString => None
        | String d rest' =>
            if decide (d = "u"%char) then
              match rest' with
              | String h1 (String h2 (String h3 (String h4 rest''))) =>
                  match hex4_value h1 h2 h3 h4 with
                  | Some n =>
                      if (n <? 256)%N
                      then String (ascii_of_N n) <$> literal_body_value rest''
                      else None
                  | None => None
                  end
              | _ => None
              end
            else
              match escape_value d, literal_body_value rest' with
              | Some v, Some t => Some (v +:+ t)
              | _, _ => None
              end
        end
      else String c <$> literal_body_value rest
  end.

Definition string_literal_value (lit : string) : option string :=
  match lit with
  | EmptyString => None
  | String c body => if decide (c = DQ) then literal_body_value body else None
  end.

(** *** [mfeBase]

    The [config] hook, given the port of the user's configuration, when it
    has one, and the mode:
<<
    config: ({ server: { port = 5173 } = {} }, { mode }) => ({
        base: './',
        define: { 'import.meta.env.MFE': JSON.stringify(name) },
        server: { cors: true, origin: mode === 'development' ? `http://localhost:${port}` : undefined },
        preview: { cors: true },
    })
>>
    [token] is the key of [define]: [import.meta.env.MFE] in the current
    version, [import.meta.env.NAME] in the previous one. The bundler puts the
    text defined for the token in the place of the token, so that [getMfe()],
    which is [import.meta.env.MFE], evaluates that text. *)
Record base_config := BaseConfig {
  base : string;
  define : list (string * string);
  server_cors : bool;
  server_origin : option string;
  preview_cors : bool
}.

Definition mfeBase (token name : string) (port : option N) (mode : string) : base_config :=
  BaseConfig "./" [(token, JSON_stringify name)] true
    (if decide (mode = "development")
     then Some ("http://localhost:"
                +:+ DecimalString.NilZero.string_of_uint (N.to_uint (default 5173%N port)))
     else None)
    true.

(** *** [mfeHtml] of the previous version

<<
    const scripts = Object.values(entries).map(entry => `<script type="module" src="/${entry}"></script>`)
    const indexHtml = indexHtmlTemplate.replace('</head>', `${scripts.join('')}</head>`)
>>
    [indexHtmlTemplate] is the text of the package's [index.html]. *)
Definition script_tag (entry : string) : string :=
  dquoted "<script type='module' src='/" +:+ entry +:+ dquoted "'></script>".

Definition scripts (entries : jsobj) : string :=
  join "" (script_tag <$> Object_values entries).

Definition indexHtml (indexHtmlTemplate : string) (entries : jsobj) : string :=
  replace_str "</head>" (scripts entries +:+ "</head>") indexHtmlTemplate.

(** *** The [keepEnv] plugins of the package's [vite.config.ts]

<<
    { name: 'keepEnv', enforce: 'pre', transform: code => code.replaceAll('import.meta.env', '_import.meta.env') },
    { name: 'keepEnv', enforce: 'post', transform: code => code.replaceAll('_import.meta.env', 'import.meta.env') },
>> *)
Definition keepEnv_pre (code : string) : string :=
  replaceAll_str "import.meta.env" "_import.meta.env" code.

Definition keepEnv_post (code : string) : string :=
  replaceAll_str "_import.meta.env" "import.meta.env" code.

End Build.

(** ** Facts about objects and strings *)

Section ObjectFacts.
Import JS.

Lemma append_nil_r (s : string) : s +:+ "" = s.
Proof. induction s; simpl; congruence. Qed.

Lemma append_assoc (a b c : string) : (a +:+ b) +:+ c = a +:+ b +:+ c.
Proof. induction a; simpl; congruence. Qed.

Lemma append_length (a b : string) :
  String.length (a +:+ b) = String.length a + String.length b.
Proof. induction a; simpl; congruence. Qed.

Lemma append_inv_tail (a b t : string) : a +:+ t = b +:+ t → a = b.
Proof.
  revert b. induction a as [|c a IH]; intros [|d b] H; simpl in *; try done.
  - exfalso. apply (f_equal String.length) in H. simpl in H.
    rewrite append_length in H. lia.
  - exfalso. apply (f_equal String.length) in H. simpl in H.
    rewrite append_length in H. lia.
  - injection H as -> H. f_equal. by apply IH.
Qed.

Lemma join_empty_sep (l : list string) : join "" l = Spec.concat_texts l.
Proof.
  induction l as [|x [|y l] IH]; simpl in *; [done| by rewrite append_nil_r |].
  by rewrite IH.
Qed.

Lemma js_put_keys (k v : string) (o : jsobj) :
  (js_put k v o).*1 = if decide (k ∈ o.*1) then o.*1 else o.*1 ++ [k].
Proof.
  induction o as [|[k' v'] o IH]; csimpl; [done|].
  destruct (decide (k = k')) as [->|Hne].
  - rewrite decide_True by set_solver. done.
  - csimpl. rewrite IH. destruct (decide (k ∈ o.*1)).
    + rewrite decide_True by set_solver. done.
    + rewrite decide_False by set_solver. done.
Qed.

Lemma js_put_fresh (k v : string) (o : jsobj) :
  k ∉ o.*1 → js_put k v o = o ++ [(k, v)].
Proof.
  induction o as [|[k' v'] o IH]; csimpl; [done|]. intros Hk.
  rewrite decide_False by set_solver. rewrite IH by set_solver. done.
Qed.

Lemma js_put_mapped (f : string → string) (k v : string) (ks : list string) :
  NoDup ks →
  js_put k v ((λ i, (i, f i)) <$> ks)
  = (λ i, (i, if decide (k = i) then v else f i))
      <$> (if decide (k ∈ ks) then ks else ks ++ [k]).
Proof.
  induction ks as [|i ks IH]; intros Hnd; csimpl.
  - rewrite decide_True by done. done.
  - apply NoDup_cons in Hnd as [Hi Hnd].
    destruct (decide (k = i)) as [->|Hne].
    + rewrite decide_True by set_solver. csimpl. rewrite decide_True by done.
      f_equal. apply list_fmap_ext. intros n j Hj.
      rewrite decide_False; [done|]. intros Heq. subst j.
      apply Hi. by eapply list_elem_of_lookup_2.
    + rewrite IH by done. destruct (decide (k ∈ ks)).
      * rewrite decide_True by set_solver. csimpl.
        rewrite decide_False by done. done.
      * rewrite decide_False by set_solver. csimpl.
        rewrite decide_False by done. done.
Qed.

Lemma js_put_idemp (k v : string) (o : jsobj) :
  js_put k v (js_put k v o) = js_put k v o.
Proof.
  induction o as [|[k' v'] o IH]; csimpl.
  - by rewrite decide_True.
  - destruct (decide (k = k')) as [->|Hne]; csimpl.
    + by rewrite decide_True.
    + rewrite decide_False by done. by rewrite IH.
Qed.

Lemma js_set_idemp (k v : string) (o : jsobj) :
  js_set k v (js_set k v o) = js_set k v o.
Proof. unfold js_set. case_decide; [done|]. apply js_put_idemp. Qed.

Lemma js_set_keys_mono (k v : string) (o : jsobj) : o.*1 ⊆ (js_set k v o).*1.
Proof.
  unfold js_set. case_decide; [done|]. rewrite js_put_keys.
  case_decide; set_solver.
Qed.

(** [js_order] commutes with a map that keeps keys. *)
Lemma insert_index_fmap {A B} (g : A → B) (n : N) (x : A) (l : list (N * A)) :
  insert_index n (g x) (prod_map id g <$> l) = prod_map id g <$> insert_index n x l.
Proof.
  induction l as [|[m y] l IH]; csimpl; [done|].
  destruct (n <? m)%N; csimpl; [done|]. by rewrite IH.
Qed.

Lemma index_sorted_fmap {A B} (key : B → string) (g : A → B) (l : list A) :
  index_sorted key (g <$> l) = prod_map id g <$> index_sorted (key ∘ g) l.
Proof.
  induction l as [|x l IH]; csimpl; [done|].
  unfold index_sorted in *. csimpl. rewrite IH.
  destruct (array_index (key (g x))); [|done]. apply insert_index_fmap.
Qed.

Lemma filter_fmap_key {A B} (key : B → string) (g : A → B) (l : list A) :
  filter (λ x, array_index (key x) = None) (g <$> l)
  = g <$> filter (λ x, array_index ((key ∘ g) x) = None) l.
Proof.
  induction l as [|x l IH]; csimpl; [done|].
  rewrite !filter_cons. csimpl. rewrite IH.
  by destruct (decide (array_index (key (g x)) = None)).
Qed.

Lemma js_order_fmap {A B} (key : B → string) (g : A → B) (l : list A) :
  js_order key (g <$> l) = g <$> js_order (key ∘ g) l.
Proof.
  unfold js_order. rewrite index_sorted_fmap, filter_fmap_key, fmap_app.
  f_equal. rewrite <- !list_fmap_compose. by apply list_fmap_ext.
Qed.

(** Without array indices among the keys, the order is creation order. *)
Lemma index_sorted_plain {A} (key : A → string) (l : list A) :
  Forall (λ x, array_index (key x) = None) l → index_sorted key l = [].
Proof.
  unfold index_sorted. induction 1 as [|x l Hx Hl IH]; [done|].
  csimpl. by rewrite Hx.
Qed.

Lemma js_order_plain {A} (key : A → string) (l : list A) :
  Forall (λ x, array_index (key x) = None) l → js_order key l = l.
Proof.
  intros Hl. unfold js_order. rewrite index_sorted_plain by done. csimpl.
  induction Hl as [|x l Hx Hl IH]; [done|].
  by rewrite filter_cons_True, IH.
Qed.

Lemma Object_keys_order (o : jsobj) : Object_keys o = js_order id o.*1.
Proof. unfold Object_keys. by rewrite js_order_fmap. Qed.

(** An update of an existing property moves no key. *)
Lemma Object_keys_put_existing (k v : string) (o : jsobj) :
  k ∈ o.*1 → Object_keys (js_put k v o) = Object_keys o.
Proof.
  intros Hk. rewrite !Object_keys_order, js_put_keys. by rewrite decide_True.
Qed.

(** The array indices come out in ascending order. *)
Lemma insert_index_Forall {A} (Q : N * A → Prop) (n : N) (x : A) (l : list (N * A)) :
  Q (n, x) → Forall Q l → Forall Q (insert_index n x l).
Proof.
  intros Hx. induction 1 as [|[m y] l Hy Hl IH]; csimpl; [by repeat constructor|].
  destruct (n <? m)%N; by repeat constructor.
Qed.

Lemma insert_index_sorted {A} (n : N) (x : A) (l : list (N * A)) :
  StronglySorted (λ a b, (a.1 ≤ b.1)%N) l →
  StronglySorted (λ a b, (a.1 ≤ b.1)%N) (insert_index n x l).
Proof.
  induction 1 as [|[m y] l Hl IH Hy]; csimpl; [by repeat constructor|].
  destruct (n <? m)%N eqn:E.
  - apply N.ltb_lt in E. constructor; [by constructor|].
    constructor; [csimpl; lia|].
    eapply Forall_impl; [exact Hy|]. csimpl. intros [k z]; csimpl; lia.
  - apply N.ltb_ge in E. constructor; [done|].
    apply insert_index_Forall; [csimpl; lia|done].
Qed.

Lemma index_sorted_sorted {A} (key : A → string) (l : list A) :
  StronglySorted (λ a b, (a.1 ≤ b.1)%N) (index_sorted key l).
Proof.
  unfold index_sorted. induction l as [|x l IH]; csimpl; [constructor|].
  destruct (array_index (key x)); [|done]. by apply insert_index_sorted.
Qed.

Lemma insert_index_head {A} (n : N) (x : A) (l : list (N * A)) :
  Forall (λ b, (n < b.1)%N) l → insert_index n x l = (n, x) :: l.
Proof.
  destruct 1 as [|[m y] l Hy Hl]; csimpl in *; [done|].
  by rewrite (proj2 (N.ltb_lt n m)).
Qed.

(** Leaving properties out commutes with the order of the others. *)
Lemma filter_insert_index {A} (P : A → Prop) `{!∀ x, Decision (P x)}
    (n : N) (x : A) (l : list (N * A)) :
  StronglySorted (λ a b, (a.1 ≤ b.1)%N) l →
  filter (λ e, P e.2) (insert_index n x l)
  = if decide (P x) then insert_index n x (filter (λ e, P e.2) l)
    else filter (λ e, P e.2) l.
Proof.
  induction 1 as [|[m y] l Hl IH Hy]; csimpl.
  - rewrite filter_cons, filter_nil. csimpl. by case_decide.
  - destruct (n <? m)%N eqn:E.
    + apply N.ltb_lt in E. rewrite (filter_cons _ (n, x)). csimpl.
      destruct (decide (P x)); [|done].
      rewrite insert_index_head; [done|].
      apply Forall_forall. intros [k z] [_ Hz]%list_elem_of_filter. csimpl.
      apply elem_of_cons in Hz as [[= -> ->]|Hz]; [done|].
      rewrite Forall_forall in Hy. specialize (Hy _ Hz). csimpl in Hy. lia.
    + rewrite !(filter_cons _ (m, y)). csimpl. rewrite IH.
      destruct (decide (P y)), (decide (P x)); csimpl; try done.
      by rewrite E.
Qed.

Lemma filter_index_sorted {A} (P : A → Prop) `{!∀ x, Decision (P x)}
    (key : A → string) (l : list A) :
  filter (λ e, P e.2) (index_sorted key l) = index_sorted key (filter P l).
Proof.
  induction l as [|x l IH]; [done|].
  rewrite filter_cons. unfold index_sorted in *. csimpl.
  destruct (array_index (key x)) as [n|] eqn:E.
  - rewrite filter_insert_index by apply index_sorted_sorted.
    rewrite IH. destruct (decide (P x)); csimpl; [by rewrite E|done].
  - rewrite IH. destruct (decide (P x)); csimpl; [by rewrite E|done].
Qed.

Lemma filter_fmap_snd {A} (P : A → Prop) `{!∀ x, Decision (P x)} (l : list (N * A)) :
  filter P l.*2 = (filter (λ e, P e.2) l).*2.
Proof.
  induction l as [|[n x] l IH]; [done|]. csimpl.
  rewrite !filter_cons. csimpl. rewrite IH. by case_decide.
Qed.

Lemma js_order_filter {A} (P : A → Prop) `{!∀ x, Decision (P x)}
    (key : A → string) (l : list A) :
  filter P (js_order key l) = js_order key (filter P l).
Proof.
  unfold js_order. rewrite filter_app, filter_fmap_snd, filter_index_sorted.
  f_equal. rewrite !list_filter_filter. apply list_filter_iff. naive_solver.
Qed.

(** Empty texts add nothing to a concatenation. *)
Lemma concat_texts_filter (l : list string) :
  Spec.concat_texts (filter (λ t, t ≠ "") l) = Spec.concat_texts l.
Proof.
  induction l as [|t l IH]; [done|]. rewrite filter_cons. csimpl.
  destruct (decide (t ≠ "")) as [|Ht]; csimpl; rewrite IH; [done|].
  apply dec_stable in Ht. by subst t.
Qed.

Lemma filter_values (o : jsobj) :
  filter (λ t, t ≠ "") o.*2 = (filter (λ e, e.2 ≠ "") o).*2.
Proof.
  induction o as [|[k v] o IH]; [done|]. csimpl.
  rewrite !filter_cons. csimpl. rewrite IH. by case_decide.
Qed.

(** A new property with the empty text leaves the aggregate of the current
    version as it was, wherever the property stands in the order. *)
Lemma aggregate_put_empty (k : string) (o : jsobj) :
  k ∉ o.*1 →
  join "" (Object_values (js_put k "" o)) = join "" (Object_values o).
Proof.
  intros Hk. rewrite js_put_fresh by done. rewrite !join_empty_sep.
  rewrite <- (concat_texts_filter (Object_values o)).
  rewrite <- (concat_texts_filter (Object_values _)).
  unfold Object_values. rewrite !filter_values, !js_order_filter.
  rewrite filter_app, filter_cons_False, filter_nil, app_nil_r; [done|].
  csimpl. naive_solver.
Qed.

End ObjectFacts.

(** ** The registry built by a sequence of calls *)

Section RegistryFacts.
Import JS Spec.

Lemma first_write_order_snoc (ids : list string) (id : string) :
  first_write_order (ids ++ [id])
  = if decide (id ∈ first_write_order ids) then first_write_order ids
    else first_write_order ids ++ [id].
Proof. unfold first_write_order. by rewrite foldl_app. Qed.

Lemma first_write_order_NoDup (ids : list string) : NoDup (first_write_order ids).
Proof.
  induction ids as [|id ids IH] using rev_ind; [constructor|].
  rewrite first_write_order_snoc. case_decide; [done|].
  apply NoDup_app. split_and!; [done| |apply NoDup_singleton].
  intros x Hx ->%list_elem_of_singleton. done.
Qed.

Lemma first_write_order_elem (ids : list string) (id : string) :
  id ∈ first_write_order ids ↔ id ∈ ids.
Proof.
  induction ids as [|i ids IH] using rev_ind; [done|].
  rewrite first_write_order_snoc. case_decide; set_solver.
Qed.

Lemma latest_snoc (cs : list (string * string)) (i style id : string) :
  latest (cs ++ [(i, style)]) id = if decide (i = id) then style else latest cs id.
Proof. unfold latest. by rewrite foldl_app. Qed.

(** The registry holds, in creation order, the ids in first-write order
    with their latest texts; [__proto__] is never stored. *)
Lemma registry_after_spec (cs : list (string * string)) :
  registry_after cs
  = (λ i, (i, latest cs i)) <$> first_write_order (written_ids cs).
Proof.
  unfold registry_after, written_ids.
  induction cs as [|[i style] cs IH] using rev_ind; [done|].
  rewrite foldl_app, fmap_app, filter_app. csimpl. rewrite IH.
  unfold js_set. destruct (decide (i = "__proto__")) as [->|Hi].
  - rewrite filter_cons_False, filter_nil, app_nil_r by naive_solver.
    apply list_fmap_ext. intros n j Hj. rewrite latest_snoc.
    rewrite decide_False; [done|]. intros <-.
    apply list_elem_of_lookup_2 in Hj.
    rewrite first_write_order_elem, list_elem_of_filter in Hj. naive_solver.
  - rewrite filter_cons_True, filter_nil by done.
    rewrite first_write_order_snoc.
    rewrite js_put_mapped by apply first_write_order_NoDup.
    apply list_fmap_ext. intros n j Hj. by rewrite latest_snoc.
Qed.

Lemma registry_after_values (cs : list (string * string)) :
  Object_values (registry_after cs)
  = latest cs <$> js_order id (first_write_order (written_ids cs)).
Proof.
  unfold Object_values. rewrite registry_after_spec, js_order_fmap.
  rewrite <- list_fmap_compose. done.
Qed.

Lemma registry_after_snoc (cs : list (string * string)) (id style : string) :
  registry_after (cs ++ [(id, style)]) = js_set id style (registry_after cs).
Proof. unfold registry_after. by rewrite foldl_app. Qed.

End RegistryFacts.

(** ** Events on the page *)

Section EventFacts.
Import JS Runtime.
Variable sep : string.

Lemma styles_key_inj (m1 m2 : string) : styles_key m1 = styles_key m2 → m1 = m2.
Proof. apply append_inv_tail. Qed.

Lemma styles_event_inj (m1 m2 : string) : styles_event m1 = styles_event m2 → m1 = m2.
Proof. apply append_inv_tail. Qed.

Lemma request_event_inj (m1 m2 : string) : request_event m1 = request_event m2 → m1 = m2.
Proof. apply append_inv_tail. Qed.

(** What the listeners of a styles event do, one after the other. *)
Lemma deliver_fields (type detail : string) (l : list (string * nat)) (q : page) :
  let r := foldl (λ q '(t, el), if decide (t = type)
                                then replaceChildren el detail q else q) q l in
  heap r = heap q ∧ window r = window q ∧
  request_listeners r = request_listeners q ∧
  style_listeners r = style_listeners q ∧ log r = log q ∧
  length (elements r) = length (elements q) ∧
  ∀ i, elements r !! i
       = if decide ((type, i) ∈ l) then (λ _, detail) <$> elements q !! i
         else elements q !! i.
Proof.
  revert q. induction l as [|[t el] l IH]; intros q; csimpl.
  - split_and!; done.
  - destruct (IH (if decide (t = type) then replaceChildren el detail q else q))
      as (Hh & Hw & Hr & Hs & Hl & Hn & He).
    rewrite Hh, Hw, Hr, Hs, Hl, Hn.
    destruct (decide (t = type)) as [->|Hne]; csimpl.
    + split_and!; try done; [by rewrite length_insert|].
      intros i. rewrite He. csimpl.
      destruct (decide (el = i)) as [->|Hi].
      * rewrite (decide_True (P := (type, i) ∈ (type, i) :: l)) by set_solver.
        destruct (decide (i < length (elements q))) as [Hlt|Hge].
        -- rewrite list_lookup_insert_eq by done.
           destruct (lookup_lt_is_Some_2 _ _ Hlt) as [x ->].
           by case_decide.
        -- rewrite list_insert_ge by lia.
           rewrite (lookup_ge_None_2 (elements q) i) by lia. by case_decide.
      * rewrite list_lookup_insert_ne by done.
        destruct (decide ((type, i) ∈ l)).
        -- rewrite decide_True by set_solver. done.
        -- rewrite decide_False; [done|]. set_solver.
    + split_and!; try done. intros i. rewrite He.
      destruct (decide ((type, i) ∈ l)).
      * rewrite decide_True by set_solver. done.
      * rewrite decide_False; [done|]. set_solver.
Qed.

Lemma dispatchEvent_styles_fields (type detail : string) (p : page) :
  let r := dispatchEvent_styles type detail p in
  heap r = heap p ∧ window r = window p ∧
  request_listeners r = request_listeners p ∧
  style_listeners r = style_listeners p ∧
  log r = log p ++ [(type, Some detail)] ∧
  length (elements r) = length (elements p) ∧
  ∀ i, elements r !! i
       = if decide ((type, i) ∈ style_listeners p)
         then (λ _, detail) <$> elements p !! i
         else elements p !! i.
Proof.
  exact (deliver_fields type detail (style_listeners p)
           (log_event (type, Some detail) p)).
Qed.

(** A page is determined by its fields. *)
Lemma page_eq (p q : page) :
  heap p = heap q → window p = window q →
  request_listeners p = request_listeners q →
  style_listeners p = style_listeners q →
  elements p = elements q → log p = log q → p = q.
Proof. destruct p, q; csimpl. by intros -> -> -> -> -> ->. Qed.

(** The listeners of a request event: with one listener at most of each
    type, the event runs that listener, or none. *)
Lemma request_fold_none (type : string) (l : list (string * (string * nat))) (q : page) :
  (∀ c, (type, c) ∉ l) →
  foldl (λ q '(t, (mfe, styles)), if decide (t = type)
                                  then reemit sep mfe styles q else q) q l = q.
Proof.
  revert q. induction l as [|[t [m r]] l IH]; intros q Hno; csimpl; [done|].
  rewrite decide_False.
  - apply IH. intros c Hc. apply (Hno c). set_solver.
  - intros ->. apply (Hno (m, r)). set_solver.
Qed.

Lemma request_fold_one (type m : string) (r : nat)
    (l : list (string * (string * nat))) (q : page) :
  NoDup l.*1 → (type, (m, r)) ∈ l →
  foldl (λ q '(t, (mfe, styles)), if decide (t = type)
                                  then reemit sep mfe styles q else q) q l
  = reemit sep m r q.
Proof.
  revert q. induction l as [|[t [m' r']] l IH]; intros q Hnd Hin; csimpl.
  - by apply elem_of_nil in Hin.
  - csimpl in Hnd. apply NoDup_cons in Hnd as [Ht Hnd].
    apply elem_of_cons in Hin as [Heq|Hin].
    + injection Heq as <- <- <-. rewrite decide_True by done.
      apply request_fold_none. intros c Hc. apply Ht.
      apply list_elem_of_fmap. by exists (type, c).
    + rewrite decide_False; [by apply IH|].
      intros ->. apply Ht. apply list_elem_of_fmap. by exists (type, (m, r)).
Qed.

End EventFacts.

(** ** [dispatch] and [getStyle] on well-formed pages *)

Section DispatchFacts.
Import JS Runtime.
Variable sep : string.

Lemma dispatch_unfold (m id style : string) (p : page) :
  dispatch sep m id style p
  = dispatchEvent_request sep (request_event m) (dispatch_store m id style p).
Proof.
  unfold dispatch, dispatch_store.
  by destruct (window p !! styles_key m).
Qed.

Lemma wf_registry_ext (p q : page) :
  heap q = heap p → window q = window p →
  request_listeners q = request_listeners p → wf_registry p → wf_registry q.
Proof.
  intros Hh Hw Hr [H1 H2 H3 H4 H5].
  split; rewrite ?Hh, ?Hw, ?Hr; done.
Qed.

Lemma registry_of_ext (m : string) (p q : page) :
  heap q = heap p → window q = window p → registry_of m q = registry_of m p.
Proof. unfold registry_of. by intros -> ->. Qed.

Lemma aggregate_ext (m : string) (p q : page) :
  heap q = heap p → window q = window p → aggregate sep m q = aggregate sep m p.
Proof. unfold aggregate. intros ??. by rewrite (registry_of_ext m p q). Qed.

(** The request event of [m] runs the closure over [m]'s registry. *)
Lemma dispatchEvent_request_some (m : string) (r : nat) (o : jsobj) (q : page) :
  wf_registry q → window q !! styles_key m = Some r → heap q !! r = Some o →
  dispatchEvent_request sep (request_event m) q
  = dispatchEvent_styles (styles_event m) (join sep (Object_values o))
      (log_event (request_event m, None) q).
Proof.
  intros [_ _ Hnd _ Hc] Hw Hh. unfold dispatchEvent_request.
  rewrite (request_fold_one sep _ m r) by auto.
  unfold reemit. csimpl. by rewrite Hh.
Qed.

Lemma dispatchEvent_request_none (m : string) (q : page) :
  wf_registry q → window q !! styles_key m = None →
  dispatchEvent_request sep (request_event m) q
  = log_event (request_event m, None) q.
Proof.
  intros [_ _ _ Hs _] Hw. unfold dispatchEvent_request.
  apply request_fold_none. intros [m' r'] Hin.
  apply Hs in Hin as [Heq Hin]. apply request_event_inj in Heq as <-.
  congruence.
Qed.

(** The page after the store: [m]'s registry holds the write, nothing else
    changed, and the listeners still match the registries. *)
Lemma dispatch_store_spec (m id style : string) (p : page) :
  wf_registry p →
  let q := dispatch_store m id style p in
  let o' := js_set id style (default [] (registry_of m p)) in
  wf_registry q ∧
  (∃ r, window q !! styles_key m = Some r ∧ heap q !! r = Some o') ∧
  (∀ m', m' ≠ m → registry_of m' q = registry_of m' p) ∧
  style_listeners q = style_listeners p ∧ elements q = elements p ∧
  log q = log p.
Proof.
  intros [Hv Hi Hnd Hs Hc]. unfold dispatch_store, registry_of.
  destruct (window p !! styles_key m) as [r|] eqn:Hw; csimpl.
  - destruct (lookup_lt_is_Some_2 _ _ (Hv _ _ Hw)) as [o Ho].
    rewrite Ho. csimpl. split_and!; try done.
    + split; csimpl; try done. intros k r' Hk. rewrite length_alter. eauto.
    + exists r. by rewrite Hw, list_lookup_alter_eq, Ho.
    + intros m' Hm'. destruct (window p !! styles_key m') as [r'|] eqn:Hw'; [|done].
      csimpl. rewrite list_lookup_alter_ne; [done|].
      intros ->. apply Hm'. symmetry. apply styles_key_inj. by eapply Hi.
  - assert (Hfresh : ∀ k r, window p !! k = Some r → r ≠ length (heap p)).
    { intros k r Hk ->. apply Hv in Hk. lia. }
    assert (Hal : alter (js_set id style) (length (heap p)) (heap p ++ [[]])
                  = heap p ++ [js_set id style []]).
    { apply list_eq. intros i. destruct (decide (i = length (heap p))) as [->|Hne].
      - rewrite list_lookup_alter_eq, !lookup_app_r by lia.
        by rewrite Nat.sub_diag.
      - rewrite list_lookup_alter_ne by done.
        destruct (decide (i < length (heap p))).
        + by rewrite !lookup_app_l by lia.
        + rewrite !lookup_app_r by lia.
          destruct (i - length (heap p)) as [|n0] eqn:E; [lia|done]. }
    rewrite Hal. split_and!; try done.
    + split; csimpl; rewrite ?Hal.
      * intros k r. rewrite lookup_insert, length_app. csimpl.
        case_decide; [intros [= <-]; lia|]. intros Hk%Hv. lia.
      * intros k1 k2 r. rewrite !lookup_insert.
        do 2 case_decide; subst; try done.
        -- intros [= <-] Hk. by apply Hfresh in Hk.
        -- intros Hk [= <-]. by apply Hfresh in Hk.
        -- apply Hi.
      * rewrite fmap_app. apply NoDup_app. split_and!; [done| |apply NoDup_singleton].
        intros t Ht ->%list_elem_of_singleton.
        apply list_elem_of_fmap in Ht as ([t [m' r']] & Heq & Hin). csimpl in Heq.
        subst t. apply Hs in Hin as [Heq Hin].
        apply request_event_inj in Heq as <-. congruence.
      * intros t m' r. rewrite elem_of_app, list_elem_of_singleton.
        intros [Hin|[= -> -> ->]].
        -- apply Hs in Hin as [-> Hin]. split; [done|].
           rewrite lookup_insert_ne; [done|]. intros Heq. congruence.
        -- split; [done|]. apply lookup_insert_eq.
      * intros m' r. rewrite lookup_insert. case_decide as Hk.
        -- apply styles_key_inj in Hk as <-. intros [= <-]. set_solver.
        -- intros Hin%Hc. set_solver.
    + exists (length (heap p)). rewrite lookup_insert_eq. split; [done|].
      rewrite lookup_app_r, Nat.sub_diag by lia. done.
    + intros m' Hm'. rewrite lookup_insert_ne by (intros ?%styles_key_inj; done).
      destruct (window p !! styles_key m') as [r'|] eqn:Hw'; [|done]. csimpl.
      apply lookup_app_l. eauto.
Qed.

(** What one call of [dispatch] does to a page whose registries are
    well-formed. *)
Lemma dispatch_spec (m id style : string) (p : page) :
  wf_registry p →
  let o' := js_set id style (default [] (registry_of m p)) in
  let agg := join sep (Object_values o') in
  let p' := dispatch sep m id style p in
  wf_registry p' ∧ registry_of m p' = Some o' ∧
  (∀ m', m' ≠ m → registry_of m' p' = registry_of m' p) ∧
  log p' = log p ++ [(request_event m, None); (styles_event m, Some agg)] ∧
  style_listeners p' = style_listeners p ∧
  length (elements p') = length (elements p) ∧
  (∀ i, elements p' !! i
        = if decide ((styles_event m, i) ∈ style_listeners p)
          then (λ _, agg) <$> elements p !! i else elements p !! i).
Proof.
  intros Hwf. csimpl. rewrite dispatch_unfold.
  destruct (dispatch_store_spec m id style p Hwf)
    as (Hq & (r & Hw & Hh) & Hother & Hsl & Hel & Hlog).
  rewrite (dispatchEvent_request_some m r _ _ Hq Hw Hh).
  match goal with |- context [dispatchEvent_styles ?t ?d ?q] =>
    destruct (dispatchEvent_styles_fields t d q)
      as (Fh & Fw & Fr & Fs & Fl & Fn & Fe) end.
  csimpl in *. split_and!.
  - by apply (wf_registry_ext (dispatch_store m id style p)).
  - rewrite (registry_of_ext m (dispatch_store m id style p)) by done.
    unfold registry_of. rewrite Hw. csimpl. done.
  - intros m' Hm'.
    rewrite (registry_of_ext m' (dispatch_store m id style p)) by done. auto.
  - rewrite Fl, Hlog, <- app_assoc. done.
  - congruence.
  - congruence.
  - intros i. rewrite Fe, Hsl, Hel. done.
Qed.

Lemma style_listener_unique (l : list (string * nat)) (a b : string) (el : nat) :
  NoDup l.*2 → (a, el) ∈ l → (b, el) ∈ l → a = b.
Proof.
  induction l as [|[t e] l IH]; csimpl; intros Hnd Ha Hb.
  - by apply elem_of_nil in Ha.
  - apply NoDup_cons in Hnd as [He Hnd].
    apply elem_of_cons in Ha as [Ha|Ha]; apply elem_of_cons in Hb as [Hb|Hb].
    + congruence.
    + exfalso. apply He. apply list_elem_of_fmap. exists (b, el).
      split; [csimpl; congruence|done].
    + exfalso. apply He. apply list_elem_of_fmap. exists (a, el).
      split; [csimpl; congruence|done].
    + by apply IH.
Qed.

Lemma dispatch_wf_styles (m id style : string) (p : page) :
  wf_registry p → wf_styles sep p → wf_styles sep (dispatch sep m id style p).
Proof.
  intros Hwf [Hnd Hv Hc].
  destruct (dispatch_spec m id style p Hwf)
    as (_ & Hm & Hother & _ & Hsl & Hlen & Hel).
  split; rewrite ?Hsl, ?Hlen; try done.
  intros m' el Hin. rewrite Hel.
  destruct (lookup_lt_is_Some_2 _ _ (Hv _ _ Hin)) as [x Hx].
  destruct (decide (m' = m)) as [->|Hne].
  - rewrite decide_True by done. rewrite Hx. csimpl.
    unfold aggregate. by rewrite Hm.
  - rewrite decide_False.
    + rewrite (Hc _ _ Hin). unfold aggregate. by rewrite Hother.
    + intros Hin'. apply Hne. apply styles_event_inj.
      by eapply style_listener_unique.
Qed.

(** What [getStyle] does: a new element with a listener, and the request
    event, answered when the identity has a registry. *)
Lemma getStyle_spec (m : string) (p : page) :
  wf_registry p →
  let el := (getStyle sep m p).1 in
  let p' := (getStyle sep m p).2 in
  el = length (elements p) ∧ heap p' = heap p ∧ window p' = window p ∧
  request_listeners p' = request_listeners p ∧
  style_listeners p' = style_listeners p ++ [(styles_event m, el)] ∧
  length (elements p') = S (length (elements p)) ∧
  match registry_of m p with
  | Some o =>
      let agg := join sep (Object_values o) in
      log p' = log p ++ [(request_event m, None); (styles_event m, Some agg)] ∧
      ∀ i, elements p' !! i
           = if decide ((styles_event m, i) ∈ style_listeners p')
             then (λ _, agg) <$> (elements p ++ [""]) !! i
             else (elements p ++ [""]) !! i
  | None =>
      log p' = log p ++ [(request_event m, None)] ∧
      elements p' = elements p ++ [""]
  end.
Proof.
  intros Hwf. unfold getStyle. csimpl.
  set (q := add_style_listener _ _ _).
  assert (Hq : wf_registry q) by (by apply (wf_registry_ext p)).
  unfold registry_of.
  destruct (window p !! styles_key m) as [r|] eqn:Hw; csimpl.
  - destruct (lookup_lt_is_Some_2 _ _ (wf_window_valid _ Hwf _ _ Hw)) as [o Ho].
    rewrite Ho. rewrite (dispatchEvent_request_some m r o q Hq Hw Ho).
    match goal with |- context [dispatchEvent_styles ?t ?d ?q] =>
      destruct (dispatchEvent_styles_fields t d q)
        as (Fh & Fw & Fr & Fs & Fl & Fn & Fe) end.
    csimpl in *. rewrite Fh, Fw, Fr, Fs, Fl, Fn, length_app, <- app_assoc.
    csimpl. split_and!; try done; lia.
  - rewrite (dispatchEvent_request_none m q Hq Hw). csimpl.
    rewrite length_app. csimpl. split_and!; try done; lia.
Qed.

Lemma getStyle_wf_registry (m : string) (p : page) :
  wf_registry p → wf_registry (getStyle sep m p).2.
Proof.
  intros Hwf. pose proof (getStyle_spec m p Hwf) as Hspec. cbv zeta in Hspec.
  destruct Hspec as (_ & Hh & Hw & Hr & _).
  by apply (wf_registry_ext p).
Qed.

Lemma getStyle_wf_styles (m : string) (p : page) :
  wf_registry p → wf_styles sep p → wf_styles sep (getStyle sep m p).2.
Proof.
  intros Hwf [Hnd Hv Hc].
  pose proof (getStyle_spec m p Hwf) as Hspec. cbv zeta in Hspec.
  change (getStyle sep m p).1 with (length (elements p)) in Hspec.
  set (p' := (getStyle sep m p).2) in *.
  destruct Hspec as (Hel & Hh & Hw & Hr & Hsl & Hlen & Hreg).
  assert (Hnd' : NoDup (style_listeners p').*2).
  { rewrite Hsl, fmap_app. apply NoDup_app. split_and!; [done| |apply NoDup_singleton].
    intros e He ->%list_elem_of_singleton.
    apply list_elem_of_fmap in He as ([t e] & Heq & Hin). csimpl in Heq. subst e.
    apply Hv in Hin. lia. }
  split; [done| |].
  - intros t e. rewrite Hsl, Hlen, elem_of_app, list_elem_of_singleton.
    intros [Hin%Hv|[= -> ->]]; lia.
  - intros m' e Hin.
    rewrite (aggregate_ext m' p) by done.
    assert (He : e < length (elements p ++ [""])).
    { rewrite length_app. csimpl. rewrite Hsl in Hin.
      apply elem_of_app in Hin as [Hin%Hv|Hin%list_elem_of_singleton]; [lia|].
      injection Hin as _ ->. lia. }
    assert (Hold : m' ≠ m → (elements p ++ [""]) !! e = Some (aggregate sep m' p)).
    { intros Hne. rewrite Hsl in Hin.
      apply elem_of_app in Hin as [Hin|Hin%list_elem_of_singleton].
      - rewrite lookup_app_l by eauto. auto.
      - injection Hin as Heq%styles_event_inj _. done. }
    destruct (registry_of m p) as [o|] eqn:Hreg'.
    + destruct Hreg as [_ Hlk]. rewrite Hlk.
      destruct (decide (m' = m)) as [->|Hne].
      * rewrite decide_True by done.
        destruct (lookup_lt_is_Some_2 _ _ He) as [x ->]. csimpl.
        unfold aggregate. by rewrite Hreg'.
      * rewrite decide_False; [auto|].
        intros Hin'. apply Hne. apply styles_event_inj.
        by eapply style_listener_unique.
    + destruct Hreg as [_ ->].
      destruct (decide (m' = m)) as [->|Hne]; [|auto].
      rewrite Hsl in Hin.
      apply elem_of_app in Hin as [Hin|Hin%list_elem_of_singleton].
      * rewrite lookup_app_l by eauto. auto.
      * injection Hin as ->.
        rewrite lookup_app_r, Nat.sub_diag by lia. csimpl.
        unfold aggregate. by rewrite Hreg'.
Qed.

(** Every page that scripts reach is well-formed. *)
Lemma init_page_wf : wf_registry init_page ∧ wf_styles sep init_page.
Proof.
  split; split; csimpl; try done; try apply NoDup_nil_2;
    intros; by repeat match goal with H : _ ∈ [] |- _ => apply elem_of_nil in H end.
Qed.

Lemma run_snoc (h : list op) (o : op) : run sep (h ++ [o]) = step sep (run sep h) o.
Proof. unfold run. by rewrite foldl_app. Qed.

Lemma run_wf (h : list op) : wf_registry (run sep h) ∧ wf_styles sep (run sep h).
Proof.
  induction h as [|o h [IH1 IH2]] using rev_ind; [apply init_page_wf|].
  rewrite run_snoc. destruct o as [m id style|m]; csimpl.
  - split; [by apply dispatch_spec | by apply dispatch_wf_styles].
  - split; [by apply getStyle_wf_registry | by apply getStyle_wf_styles].
Qed.

(** The registry of an identity holds the calls made for that identity. *)
Lemma calls_for_snoc (m : string) (h : list op) (o : op) :
  Spec.calls_for m (h ++ [o])
  = Spec.calls_for m h
    ++ match o with
       | Dispatch m' id style => if decide (m' = m) then [(id, style)] else []
       | GetStyle _ => []
       end.
Proof.
  unfold Spec.calls_for. rewrite omap_app. f_equal.
  destruct o as [m' id style|m']; csimpl; [|done]. by case_decide.
Qed.

Lemma registry_run (m : string) (h : list op) :
  registry_of m (run sep h)
  = if decide (Spec.calls_for m h = []) then None
    else Some (Spec.registry_after (Spec.calls_for m h)).
Proof.
  induction h as [|o h IH] using rev_ind; [done|].
  destruct (run_wf h) as [Hwf _].
  rewrite run_snoc, calls_for_snoc. destruct o as [m' id style|m']; csimpl.
  - destruct (dispatch_spec m' id style (run sep h) Hwf)
      as (_ & Hm & Hother & _).
    destruct (decide (m' = m)) as [->|Hne].
    + rewrite Hm, IH, registry_after_snoc.
      rewrite (decide_False (P := _ ++ _ = [])) by (by destruct (Spec.calls_for m h)).
      by case_decide as E; [rewrite E|].
    + rewrite Hother, app_nil_r by done. done.
  - rewrite app_nil_r.
    pose proof (getStyle_spec m' (run sep h) Hwf) as Hspec. cbv zeta in Hspec.
    destruct Hspec as (_ & Hh & Hw & _).
    rewrite (registry_of_ext m (run sep h)) by done. done.
Qed.

Lemma aggregate_run (m : string) (h : list op) :
  aggregate sep m (run sep h) = Spec.aggregate_own_order sep (Spec.calls_for m h).
Proof.
  unfold aggregate, Spec.aggregate_own_order. rewrite registry_run.
  rewrite <- registry_after_values. by case_decide as E; [rewrite E|].
Qed.

Lemma registry_of_Some (m : string) (o : jsobj) (p : page) :
  registry_of m p = Some o →
  ∃ r, window p !! styles_key m = Some r ∧ heap p !! r = Some o.
Proof.
  unfold registry_of. destruct (window p !! styles_key m) as [r|]; [|done].
  csimpl. eauto.
Qed.

Lemma list_alter_fixed {A} (f : A → A) (l : list A) (i : nat) (x : A) :
  l !! i = Some x → f x = x → alter f i l = l.
Proof.
  intros Hi Hx. apply list_eq. intros j. rewrite list_lookup_alter.
  case_decide; [|done]. subst j. rewrite Hi. csimpl. by rewrite Hx.
Qed.

(** A call for an identity that has its registry already. *)
Lemma dispatch_existing (m id style : string) (r : nat) (o : jsobj) (p : page) :
  wf_registry p → window p !! styles_key m = Some r → heap p !! r = Some o →
  dispatch sep m id style p
  = dispatchEvent_styles (styles_event m)
      (join sep (Object_values (js_set id style o)))
      (log_event (request_event m, None)
         (set_heap (alter (js_set id style) r) p)).
Proof.
  intros Hwf Hw Hh. rewrite dispatch_unfold.
  destruct (dispatch_store_spec m id style p Hwf) as (Hq & _).
  revert Hq. unfold dispatch_store. rewrite Hw. csimpl. intros Hq.
  apply (dispatchEvent_request_some m r); [done|done|].
  csimpl. by rewrite list_lookup_alter_eq, Hh.
Qed.

Lemma registry_default_run (m : string) (h : list op) :
  default [] (registry_of m (run sep h)) = Spec.registry_after (Spec.calls_for m h).
Proof. rewrite registry_run. by case_decide as E; [rewrite E|]. Qed.

Lemma registry_after_keys (cs : list (string * string)) (i : string) :
  i ∈ (Spec.registry_after cs).*1 → i ∈ cs.*1.
Proof.
  rewrite registry_after_spec, <- list_fmap_compose.
  intros (j & -> & Hj)%list_elem_of_fmap. csimpl.
  rewrite first_write_order_elem in Hj.
  by apply list_elem_of_filter in Hj as [_ Hj].
Qed.

Lemma registry_after_app_keys (cs cs2 : list (string * string)) :
  (Spec.registry_after cs).*1 ⊆ (Spec.registry_after (cs ++ cs2)).*1.
Proof.
  induction cs2 as [|[i style] cs2 IH] using rev_ind.
  - by rewrite app_nil_r.
  - rewrite app_assoc, registry_after_snoc.
    etrans; [exact IH|]. apply js_set_keys_mono.
Qed.

(** The request event changes neither the registries nor the listeners. *)
Lemma request_fold_frame (type : string) (l : list (string * (string * nat))) (q : page) :
  let r := foldl (λ q '(t, (mfe, styles)), if decide (t = type)
                                           then reemit sep mfe styles q else q) q l in
  heap r = heap q ∧ window r = window q ∧
  request_listeners r = request_listeners q ∧
  style_listeners r = style_listeners q.
Proof.
  revert q. induction l as [|[t [m r]] l IH]; intros q; csimpl; [done|].
  destruct (IH (if decide (t = type) then reemit sep m r q else q))
    as (-> & -> & -> & ->).
  case_decide; [|done]. unfold reemit.
  match goal with |- context [dispatchEvent_styles ?t ?d ?q] =>
    destruct (dispatchEvent_styles_fields t d q)
      as (Fh & Fw & Fr & Fs & _) end.
  done.
Qed.

Lemma dispatchEvent_request_frame (type : string) (q : page) :
  let r := dispatchEvent_request sep type q in
  heap r = heap q ∧ window r = window q ∧
  request_listeners r = request_listeners q ∧
  style_listeners r = style_listeners q.
Proof.
  exact (request_fold_frame type (request_listeners q) (log_event (type, None) q)).
Qed.

Lemma dispatch_window (m id style k : string) (p : page) :
  k ≠ styles_key m → window (dispatch sep m id style p) !! k = window p !! k.
Proof.
  intros Hk. rewrite dispatch_unfold.
  destruct (dispatchEvent_request_frame (request_event m)
              (dispatch_store m id style p)) as (_ & -> & _).
  unfold dispatch_store.
  destruct (window p !! styles_key m); csimpl; [done|].
  by rewrite lookup_insert_ne.
Qed.

End DispatchFacts.

(** ** The registry and dispatcher protocol: the claims *)

Section RuntimeClaims.
Import JS Runtime.

(** C1, as amended. After any history of calls, a call [dispatch(id, style)]
    for an identity dispatches on [window] the request event and then the
    styles event of that identity, whose detail is the aggregate of the calls
    made for the identity so far: the latest text of each stored fragment id,
    in the order in which JavaScript lists an object's own properties (array
    indices ascending, then the other ids in first-write order), joined by the
    version's separator; every style element subscribed to the identity holds
    that text. When no fragment id is an array index or [__proto__], the
    order is first-write order, and with the empty separator of the current
    version the aggregate is the concatenation the specification states. *)
Theorem dispatch_aggregate_own_property_order
    (sep : string) (h : list op) (m fid style : string) :
  let h' := h ++ [Dispatch m fid style] in
  let cs := Spec.calls_for m h' in
  let agg := Spec.aggregate_own_order sep cs in
  log (run sep h')
  = log (run sep h) ++ [(request_event m, None); (styles_event m, Some agg)]
  ∧ (∀ el, (styles_event m, el) ∈ style_listeners (run sep h) →
           elements (run sep h') !! el = Some agg)
  ∧ (Forall Spec.plain_id cs.*1 →
     agg = join sep (Spec.latest cs <$> Spec.first_write_order cs.*1)
     ∧ Spec.aggregate_own_order "" cs = Spec.aggregate_first_write cs).
Proof.
  csimpl. destruct (run_wf sep h) as [Hwf Hst].
  pose proof (aggregate_run sep m (h ++ [Dispatch m fid style])) as Hagg.
  rewrite run_snoc in *. csimpl in *.
  destruct (dispatch_spec sep m fid style (run sep h) Hwf)
    as (_ & Hm & _ & Hlog & _ & _ & Hel).
  assert (Heq : join sep (Object_values
                  (js_set fid style (default [] (registry_of m (run sep h)))))
                = Spec.aggregate_own_order sep
                    (Spec.calls_for m (h ++ [Dispatch m fid style]))).
  { rewrite <- Hagg. unfold aggregate. by rewrite Hm. }
  split_and!.
  - by rewrite Hlog, Heq.
  - intros el Hin. rewrite Hel, decide_True by done.
    destruct (lookup_lt_is_Some_2 _ _ (wf_style_valid _ _ Hst _ _ Hin)) as [x ->].
    csimpl. by rewrite Heq.
  - intros Hplain.
    assert (Hw : Spec.written_ids (Spec.calls_for m (h ++ [Dispatch m fid style]))
                 = (Spec.calls_for m (h ++ [Dispatch m fid style])).*1).
    { unfold Spec.written_ids.
      induction Hplain as [|i l [_ Hi] Hl IH]; [done|].
      by rewrite filter_cons_True, IH. }
    assert (Ho : js_order id (Spec.first_write_order
                   (Spec.calls_for m (h ++ [Dispatch m fid style])).*1)
                 = Spec.first_write_order
                     (Spec.calls_for m (h ++ [Dispatch m fid style])).*1).
    { apply js_order_plain. apply Forall_forall. intros i Hi.
      rewrite first_write_order_elem in Hi.
      rewrite Forall_forall in Hplain. by destruct (Hplain i Hi). }
    unfold Spec.aggregate_own_order, Spec.aggregate_first_write.
    rewrite Hw, Ho. split; [done|]. apply join_empty_sep.
Qed.

(** C1, as stated, fails: fragment ids that are array indices are listed in
    ascending numeric order, not in first-write order. After [dispatch('2',
    'a')] and [dispatch('1', 'b')] the styles event carries [ba], and the
    concatenation in first-write order is [ab]. *)
Lemma dispatch_aggregate_not_first_write_order :
  last (log (run "" [Dispatch "app" "2" "a"; Dispatch "app" "1" "b"]))
  = Some (styles_event "app", Some "ba")
  ∧ Spec.aggregate_first_write
      (Spec.calls_for "app" [Dispatch "app" "2" "a"; Dispatch "app" "1" "b"])
    = "ab"
  ∧ last (log (run "" [Dispatch "app" "2" "a"; Dispatch "app" "1" "b"]))
    ≠ Some (styles_event "app",
            Some (Spec.aggregate_first_write
                    (Spec.calls_for "app"
                       [Dispatch "app" "2" "a"; Dispatch "app" "1" "b"]))).
Proof. vm_compute. split_and!; [done|done|discriminate]. Qed.

(** C2. After a history with at least one call of [dispatch] for an
    identity, [getStyle] for that identity dispatches the request event and,
    before it returns, the styles event whose detail is the aggregate of the
    registry as of those calls; the new style element holds that aggregate. *)
Theorem getStyle_replays_aggregate (sep : string) (h : list op) (m : string) :
  Spec.calls_for m h ≠ [] →
  let p := run sep h in
  let el := (getStyle sep m p).1 in
  let p' := (getStyle sep m p).2 in
  let agg := join sep (Object_values (Spec.registry_after (Spec.calls_for m h))) in
  log p' = log p ++ [(request_event m, None); (styles_event m, Some agg)]
  ∧ elements p' !! el = Some agg
  ∧ agg = aggregate sep m p
  ∧ agg = Spec.aggregate_own_order sep (Spec.calls_for m h).
Proof.
  intros Hcs. destruct (run_wf sep h) as [Hwf Hst].
  pose proof (getStyle_spec sep m (run sep h) Hwf) as Hspec. cbv zeta in *.
  destruct Hspec as (Hel & _ & _ & _ & Hsl & _ & Hreg).
  pose proof (registry_run sep m h) as Hr. rewrite decide_False in Hr by done.
  rewrite Hr in Hreg. destruct Hreg as [Hlog Hlk].
  split_and!.
  - done.
  - rewrite Hlk, Hsl, Hel, decide_True by set_solver.
    rewrite lookup_app_r, Nat.sub_diag by lia. done.
  - unfold aggregate. by rewrite Hr.
  - rewrite <- aggregate_run. unfold aggregate. by rewrite Hr.
Qed.

Lemma getStyle_replays_aggregate_witness :
  Spec.calls_for "app" [Dispatch "app" "main" "a{}"; Dispatch "app" "lazy" "b{}"] ≠ []
  ∧ elements
      (getStyle "" "app"
         (run "" [Dispatch "app" "main" "a{}"; Dispatch "app" "lazy" "b{}"])).2
    !! (getStyle "" "app"
          (run "" [Dispatch "app" "main" "a{}"; Dispatch "app" "lazy" "b{}"])).1
    = Some "a{}b{}".
Proof.
  assert (Hne : Spec.calls_for "app"
                  [Dispatch "app" "main" "a{}"; Dispatch "app" "lazy" "b{}"] ≠ [])
    by discriminate.
  split; [exact Hne|].
  exact (proj1 (proj2 (getStyle_replays_aggregate ""
           [Dispatch "app" "main" "a{}"; Dispatch "app" "lazy" "b{}"] "app" Hne))).
Defined.

(** C3. Publishing the same (identity, fragment id, text) a second time
    leaves the registries, the listeners, the style elements and the
    aggregate as the first call left them; each of the two calls dispatches
    its own request event and styles event, with the same detail. *)
Theorem dispatch_twice_same_state (sep : string) (h : list op) (m id css : string) :
  let p0 := run sep h in
  let p1 := dispatch sep m id css p0 in
  let p2 := dispatch sep m id css p1 in
  let agg := aggregate sep m p1 in
  heap p2 = heap p1 ∧ window p2 = window p1
  ∧ request_listeners p2 = request_listeners p1
  ∧ style_listeners p2 = style_listeners p1
  ∧ elements p2 = elements p1
  ∧ aggregate sep m p2 = agg
  ∧ log p1 = log p0 ++ [(request_event m, None); (styles_event m, Some agg)]
  ∧ log p2 = log p1 ++ [(request_event m, None); (styles_event m, Some agg)].
Proof.
  csimpl. destruct (run_wf sep h) as [Hwf Hst].
  destruct (dispatch_spec sep m id css (run sep h) Hwf)
    as (Hwf1 & Hm & _ & Hlog & Hsl & Hlen & Hel).
  set (p1 := dispatch sep m id css (run sep h)) in *.
  set (o1 := js_set id css (default [] (registry_of m (run sep h)))) in *.
  destruct (registry_of_Some m o1 p1 Hm) as (r & Hw & Hh).
  assert (Hfix : js_set id css o1 = o1) by apply js_set_idemp.
  assert (Hagg : aggregate sep m p1 = join sep (Object_values o1)).
  { unfold aggregate. by rewrite Hm. }
  rewrite (dispatch_existing sep m id css r o1 p1 Hwf1 Hw Hh), Hfix, Hagg.
  match goal with |- context [dispatchEvent_styles ?t ?d ?q] =>
    destruct (dispatchEvent_styles_fields t d q)
      as (Fh & Fw & Fr & Fs & Fl & Fn & Fe);
    set (p2 := dispatchEvent_styles t d q) in * end.
  csimpl in *. rewrite (list_alter_fixed _ _ _ _ Hh Hfix) in Fh.
  split_and!; try done.
  - apply list_eq. intros i. rewrite Fe, Hsl, Hel.
    case_decide; [|done]. by destruct (elements (run sep h) !! i).
  - unfold aggregate, registry_of. rewrite Fh, Fw.
    fold (registry_of m p1). by rewrite Hm.
  - by rewrite Fl, <- app_assoc.
Qed.

(** C5. In the current version, a call [dispatch(id, '')] for a fragment id
    that no call wrote before, whether the identity has a registry or not,
    leaves the aggregate and the content of every style element as they
    were; the events it dispatches carry the unchanged aggregate, which is
    the empty text when the identity had no registry. The model's functions
    are total: no call raises. *)
Theorem remove_unpublished_keeps_styles (h : list op) (m fid : string) :
  fid ∉ (Spec.calls_for m h).*1 →
  let p := run "" h in
  let p' := dispatch_mfe m fid "" p in
  aggregate "" m p' = aggregate "" m p
  ∧ elements p' = elements p
  ∧ log p' = log p ++ [(request_event m, None);
                       (styles_event m, Some (aggregate "" m p))]
  ∧ (Spec.calls_for m h = [] → aggregate "" m p' = "").
Proof.
  intros Hfid. csimpl. unfold dispatch_mfe.
  destruct (run_wf "" h) as [Hwf Hst].
  destruct (dispatch_spec "" m fid "" (run "" h) Hwf)
    as (_ & Hm & _ & Hlog & Hsl & Hlen & Hel).
  assert (Hagg : join "" (Object_values
                   (js_set fid "" (default [] (registry_of m (run "" h)))))
                 = aggregate "" m (run "" h)).
  { unfold aggregate, js_set. case_decide; [done|].
    apply aggregate_put_empty. rewrite registry_default_run.
    intros Hin. by apply Hfid, registry_after_keys. }
  assert (Hagg' : aggregate "" m (dispatch "" m fid "" (run "" h))
                  = aggregate "" m (run "" h)).
  { rewrite <- Hagg. unfold aggregate at 1. by rewrite Hm. }
  split_and!.
  - done.
  - apply list_eq. intros i. rewrite Hel, Hagg. case_decide as Hin; [|done].
    by rewrite (wf_style_content _ _ Hst _ _ Hin).
  - by rewrite Hlog, Hagg.
  - intros Hcs. rewrite Hagg'. unfold aggregate.
    rewrite registry_default_run, Hcs. done.
Qed.

Lemma remove_unpublished_keeps_styles_witness :
  ("ghost" ∉ (Spec.calls_for "app" [Dispatch "app" "main" "a{}"; GetStyle "app"]).*1)
  ∧ elements (dispatch_mfe "app" "ghost" ""
                (run "" [Dispatch "app" "main" "a{}"; GetStyle "app"]))
    = elements (run "" [Dispatch "app" "main" "a{}"; GetStyle "app"]).
Proof.
  assert (Hne : "ghost" ∉ (Spec.calls_for "app"
                             [Dispatch "app" "main" "a{}"; GetStyle "app"]).*1).
  { apply not_elem_of_cons. split; [discriminate|apply not_elem_of_nil]. }
  split; [exact Hne|].
  exact (proj1 (proj2 (remove_unpublished_keeps_styles
           [Dispatch "app" "main" "a{}"; GetStyle "app"] "app" "ghost" Hne))).
Defined.

(** C10. A call of [dispatch] for an identity A leaves the registry object
    of every other identity and every other property of [window] as they
    were; the fragment ids of A's registry are kept by the call, and by every
    later sequence of calls. *)
Theorem dispatch_mutates_own_registry_only
    (sep : string) (h : list op) (A fid style : string) :
  let p := run sep h in
  let p' := dispatch sep A fid style p in
  (∀ B, B ≠ A → registry_of B p' = registry_of B p)
  ∧ (∀ k, k ≠ styles_key A → window p' !! k = window p !! k)
  ∧ (default [] (registry_of A p)).*1 ⊆ (default [] (registry_of A p')).*1
  ∧ (∀ h2, (default [] (registry_of A p)).*1
           ⊆ (default [] (registry_of A (run sep (h ++ h2)))).*1).
Proof.
  csimpl. destruct (run_wf sep h) as [Hwf _].
  destruct (dispatch_spec sep A fid style (run sep h) Hwf) as (_ & Hm & Hother & _).
  split_and!.
  - done.
  - intros k Hk. by apply dispatch_window.
  - rewrite Hm. csimpl. apply js_set_keys_mono.
  - intros h2. rewrite !registry_default_run.
    unfold Spec.calls_for. rewrite omap_app. apply registry_after_app_keys.
Qed.

(** Fragment ids that are no array indices: the second write of [b] keeps
    its first place. *)
Example first_write_order_of_plain_ids :
  last (log (run "" [Dispatch "app" "b" "1"; Dispatch "app" "a" "2";
                     Dispatch "app" "b" "3"]))
  = Some (styles_event "app", Some "32").
Proof. by vm_compute. Qed.

(** The specification's scenario C: publish, remove, then a new subscriber.
    The subscriber observes the empty text, and the fragment keeps its slot
    in the registry. *)
Example scenario_publish_remove_subscribe :
  let p := run "" [Dispatch "app" "main" "a{}"; Dispatch "app" "main" "";
                   GetStyle "app"] in
  elements p = [""]
  ∧ last (log p) = Some (styles_event "app", Some "")
  ∧ registry_of "app" p = Some [("main", "")].
Proof. by vm_compute. Qed.

End RuntimeClaims.

(** ** Facts about the regular expressions *)

Section RegexFacts.
Import JS.

Lemma strip_prefix_app (l s : string) : strip_prefix l (l +:+ s) = Some s.
Proof. induction l as [|c l IH]; csimpl; [done|]. by rewrite decide_True. Qed.

Lemma search_unfold (re : regex) (before s : string) :
  search re before s
  = match match_here re s with
    | Some (m, rest) => Some (before, m, rest)
    | None =>
        match s with
        | EmptyString => None
        | String c s' => search re (before +:+ String c EmptyString) s'
        end
    end.
Proof. by destruct s. Qed.

(** [.+?\)] on an argument text without parenthesis matches it whole. *)
Lemma lazy_args_match (a post : string) :
  plain_args a = true →
  any_plus_lazy (match_here [Lit ")"]) (a +:+ ")" +:+ post)
  = Some (a +:+ ")", post).
Proof.
  unfold plain_args. intros [Hne Ha]%andb_prop.
  apply negb_true_iff, bool_decide_eq_false in Hne.
  change (")" +:+ post) with (String ")" post).
  induction a as [|c a IH]; [done|]. clear Hne. cbn [no_paren] in Ha.
  apply andb_prop in Ha as [[Hc1 Hc2]%andb_prop Ha].
  apply negb_true_iff in Hc1. apply negb_true_iff, bool_decide_eq_false in Hc2.
  cbn [String.append any_plus_lazy]. rewrite Hc1.
  destruct a as [|c' a].
  - cbn. rewrite decide_True by done. done.
  - cbn [no_paren] in Ha. pose proof Ha as Ha'.
    apply andb_prop in Ha' as [[_ Hc']%andb_prop _].
    apply negb_true_iff, bool_decide_eq_false in Hc'.
    rewrite IH by done.
    replace (match_here [Lit ")"] (String c' a +:+ String ")" post))
      with (@None re_match); [done|].
    cbn. rewrite decide_False by congruence. done.
Qed.

Lemma call_match (name a post : string) :
  plain_args a = true →
  match_here [Lit name; AnyPlus false; Lit ")"] (name +:+ a +:+ ")" +:+ post)
  = Some (name +:+ a +:+ ")", post).
Proof.
  intros Ha. cbn [match_here]. rewrite strip_prefix_app.
  change (any_plus_lazy _ ?s) with (any_plus_lazy (match_here [Lit ")"]) s).
  by rewrite lazy_args_match.
Qed.

(** The leftmost match of a pattern that starts with a literal text starts
    at the first occurrence of the text, when the pattern matches there. *)
Lemma search_first_occurrence (l : string) (re : regex) (before pre s m rest : string) :
  indexOf l (pre +:+ s) = Some (String.length pre) →
  match_here (Lit l :: re) s = Some (m, rest) →
  search (Lit l :: re) before (pre +:+ s) = Some (before +:+ pre, m, rest).
Proof.
  revert before. induction pre as [|c pre IH]; intros before Hi Hm.
  - rewrite search_unfold. cbn [String.append]. rewrite Hm.
    by rewrite append_nil_r.
  - rewrite search_unfold. cbn [String.append] in *.
    cbn [indexOf String.length] in Hi.
    destruct (strip_prefix l (String c (pre +:+ s))) eqn:E; [done|].
    cbn [match_here]. rewrite E.
    destruct (indexOf l (pre +:+ s)) as [n|] eqn:En; [|done].
    injection Hi as ->. rewrite IH by done.
    by rewrite append_assoc.
Qed.

Lemma GetSubstitution_free (m b a t : string) :
  substitution_free t = true → GetSubstitution m b a t = t.
Proof.
  induction t as [|c t IH]; [done|]. cbn [substitution_free GetSubstitution].
  destruct t as [|d t]; [by case_decide|].
  intros [Hc Ht]%andb_prop. apply negb_true_iff in Hc.
  specialize (IH Ht).
  destruct (decide (c = "$"%char)) as [->|Hne]; [|by rewrite IH].
  rewrite bool_decide_true in Hc by done. csimpl in Hc.
  apply orb_false_elim in Hc as [[[H1 H2]%orb_false_elim H3]%orb_false_elim H4].
  apply bool_decide_eq_false in H1, H2, H3, H4.
  rewrite !decide_False by done. by rewrite IH.
Qed.

(** One [replace] of the plugin: the first call of [name] is replaced. *)
Lemma replace_first_call (name a pre post replacement : string) :
  plain_args a = true → substitution_free replacement = true →
  indexOf name (pre +:+ name +:+ a +:+ ")" +:+ post) = Some (String.length pre) →
  replace_re [Lit name; AnyPlus false; Lit ")"] replacement
    (pre +:+ name +:+ a +:+ ")" +:+ post)
  = pre +:+ replacement +:+ post.
Proof.
  intros Ha Hr Hi. unfold replace_re.
  rewrite (search_first_occurrence name _ "" pre _ _ _ Hi (call_match name a post Ha)).
  csimpl. by rewrite GetSubstitution_free.
Qed.

End RegexFacts.

(** ** The transform stage: the claims *)

Section TransformClaims.
Import JS Runtime Plugin.

Lemma js_get_put (k v : string) (o : jsobj) : js_get (js_put k v o) k = Some v.
Proof.
  induction o as [|[k' v'] o IH]; csimpl.
  - by rewrite decide_True.
  - destruct (decide (k = k')) as [->|Hne]; csimpl.
    + by rewrite decide_True.
    + by rewrite decide_False.
Qed.

(** Both versions: the first call of each kind is replaced, and the rest of
    the code is kept. *)
Lemma transform_with_first_calls (upd rm pre a1 mid a2 post : string) :
  plain_args a1 = true → plain_args a2 = true →
  substitution_free upd = true → substitution_free rm = true →
  indexOf "__vite__updateStyle("
    (pre +:+ "__vite__updateStyle(" +:+ a1 +:+ ")" +:+ mid +:+
     "__vite__removeStyle(" +:+ a2 +:+ ")" +:+ post)
  = Some (String.length pre) →
  indexOf "__vite__removeStyle("
    ((pre +:+ upd +:+ mid) +:+ "__vite__removeStyle(" +:+ a2 +:+ ")" +:+ post)
  = Some (String.length (pre +:+ upd +:+ mid)) →
  transform_with upd rm
    (pre +:+ "__vite__updateStyle(" +:+ a1 +:+ ")" +:+ mid +:+
     "__vite__removeStyle(" +:+ a2 +:+ ")" +:+ post)
  = pre +:+ upd +:+ mid +:+ rm +:+ post.
Proof.
  intros Ha1 Ha2 Hs1 Hs2 Hi1 Hi2.
  unfold transform_with, re_updateStyle, re_removeStyle.
  rewrite (replace_first_call "__vite__updateStyle(" a1 pre _ _ Ha1 Hs1 Hi1).
  rewrite <- (append_assoc upd mid).
  rewrite <- (append_assoc pre (upd +:+ mid)).
  rewrite (replace_first_call "__vite__removeStyle(" a2 _ post _ Ha2 Hs2 Hi2).
  by rewrite !append_assoc.
Qed.


(** The texts that [transform] writes are the texts of the two calls, and
    read back as these calls, whatever the text of the dispatcher. *)
Lemma replacement_texts (src : string) :
  update_replacement src = ";" +:+ print_call (update_call src)
  ∧ remove_replacement src = print_call (remove_call src).
Proof. done. Qed.

Lemma print_call_split (c : call) :
  print_call c
  = ("(" +:+ callee c +:+ ")(") +:+ (join "," (print_arg <$> args c) +:+ ")").
Proof. unfold print_call. by rewrite !append_assoc. Qed.

Lemma parse_update_call (src : string) :
  parse_call src (print_call (update_call src)) = Some (update_call src).
Proof.
  unfold parse_call. rewrite print_call_split.
  change (callee (update_call src)) with src. by rewrite strip_prefix_app.
Qed.

Lemma parse_remove_call (src : string) :
  parse_call src (print_call (remove_call src)) = Some (remove_call src).
Proof.
  unfold parse_call. rewrite print_call_split.
  change (callee (remove_call src)) with src. by rewrite strip_prefix_app.
Qed.

(** C4. In a module with the bundler's two calls, [transform] puts in the
    place of the remove-style call a text that reads as a call of the
    dispatcher's own function text, the callee of the text it puts in the
    place of the update-style call, with the fragment id and the string
    literal [''] as arguments. Run in a module whose [__vite__id] is a
    fragment id, that text is [dispatch] with that id and the empty text:
    the page after it, event log included, is the page after the publish of
    the empty text, as it is after the rewritten update-style call when the
    module's [__vite__css] is the empty text. On a fragment id that the
    registry holds, the call keeps the order of the fragment ids and stores
    the empty text. *)
Theorem remove_rewrite_is_publish_empty
    (dispatch_src sep mfe pre a1 mid a2 post : string) (h : list op)
    (env : gmap string string) (fid : string) :
  plain_args a1 = true → plain_args a2 = true →
  substitution_free (update_replacement dispatch_src) = true →
  substitution_free (remove_replacement dispatch_src) = true →
  indexOf "__vite__updateStyle("
    (pre +:+ "__vite__updateStyle(" +:+ a1 +:+ ")" +:+ mid +:+
     "__vite__removeStyle(" +:+ a2 +:+ ")" +:+ post)
  = Some (String.length pre) →
  indexOf "__vite__removeStyle("
    ((pre +:+ update_replacement dispatch_src +:+ mid) +:+
     "__vite__removeStyle(" +:+ a2 +:+ ")" +:+ post)
  = Some (String.length (pre +:+ update_replacement dispatch_src +:+ mid)) →
  env !! "__vite__id" = Some fid →
  let p := run sep h in
  let p' := dispatch sep mfe fid "" p in
  ∃ upd rm,
    transform dispatch_src
      (pre +:+ "__vite__updateStyle(" +:+ a1 +:+ ")" +:+ mid +:+
       "__vite__removeStyle(" +:+ a2 +:+ ")" +:+ post)
    = pre +:+ ";" +:+ print_call upd +:+ mid +:+ print_call rm +:+ post
    ∧ parse_call dispatch_src (print_call upd) = Some upd
    ∧ parse_call dispatch_src (print_call rm) = Some rm
    ∧ callee rm = dispatch_src ∧ callee upd = dispatch_src
    ∧ args upd = [Ident "__vite__id"; Ident "__vite__css"]
    ∧ args rm = [Ident "__vite__id"; StringLit ""]
    ∧ eval_call_text sep mfe dispatch_src env (print_call rm) p = Some p'
    ∧ eval_call_text sep mfe dispatch_src (<["__vite__css" := ""]> env)
        (print_call upd) p = Some p'
    ∧ (fid ∈ (default [] (registry_of mfe p)).*1 →
       Object_keys (default [] (registry_of mfe p'))
       = Object_keys (default [] (registry_of mfe p))
       ∧ js_get (default [] (registry_of mfe p')) fid = Some "").
Proof.
  intros Ha1 Ha2 Hs1 Hs2 Hi1 Hi2 Hid. cbv zeta.
  exists (update_call dispatch_src), (remove_call dispatch_src).
  split_and!; try done.
  - unfold transform.
    rewrite (transform_with_first_calls _ _ _ _ _ _ _ Ha1 Ha2 Hs1 Hs2 Hi1 Hi2).
    destruct (replacement_texts dispatch_src) as [-> ->].
    by rewrite append_assoc.
  - apply parse_update_call.
  - apply parse_remove_call.
  - unfold eval_call_text. rewrite parse_remove_call. csimpl.
    unfold eval_dispatch_call, eval_callee. csimpl.
    rewrite decide_True by done. csimpl. by rewrite Hid.
  - unfold eval_call_text. rewrite parse_update_call. csimpl.
    unfold eval_dispatch_call, eval_callee. csimpl.
    rewrite decide_True by done. csimpl.
    rewrite (lookup_insert_ne env "__vite__css" "__vite__id") by done.
    rewrite Hid. csimpl. by rewrite lookup_insert_eq.
  - intros Hin. destruct (run_wf sep h) as [Hwf _].
    destruct (dispatch_spec sep mfe fid "" (run sep h) Hwf) as (_ & -> & _).
    csimpl. unfold js_set. case_decide as Hp.
    + exfalso. rewrite registry_default_run in Hin.
      rewrite registry_after_spec, <- list_fmap_compose in Hin.
      apply list_elem_of_fmap in Hin as (j & -> & Hj). csimpl in Hp.
      rewrite first_write_order_elem in Hj.
      apply list_elem_of_filter in Hj as [Hj _]. done.
    + split; [by apply Object_keys_put_existing | apply js_get_put].
Qed.

(** A CSS module of the shape the development server emits, on a page where
    the fragment is published: the text in the place of the remove-style
    call runs as the publish of the empty text. *)
Lemma remove_rewrite_is_publish_empty_witness :
  ∃ upd rm,
    transform "(id,style)=>{window[`${mfe}-styles`][id]=style}"
      ((dquoted "const __vite__id = '/src/app.css'" +:+ LF) +:+
       "__vite__updateStyle(" +:+ "__vite__id, __vite__css" +:+ ")" +:+
       (LF +:+ "import.meta.hot.prune(() => ") +:+
       "__vite__removeStyle(" +:+ "__vite__id" +:+ ")" +:+ ")")
    = (dquoted "const __vite__id = '/src/app.css'" +:+ LF) +:+ ";" +:+ print_call upd +:+
      (LF +:+ "import.meta.hot.prune(() => ") +:+ print_call rm +:+ ")"
    ∧ eval_call_text "" "app" "(id,style)=>{window[`${mfe}-styles`][id]=style}"
        {["__vite__id" := "/src/app.css"]} (print_call rm)
        (run "" [Dispatch "app" "/src/app.css" "a{}"])
      = Some (dispatch "" "app" "/src/app.css" ""
                (run "" [Dispatch "app" "/src/app.css" "a{}"])).
Proof.
  destruct (remove_rewrite_is_publish_empty
              "(id,style)=>{window[`${mfe}-styles`][id]=style}" "" "app"
              (dquoted "const __vite__id = '/src/app.css'" +:+ LF)
              "__vite__id, __vite__css" (LF +:+ "import.meta.hot.prune(() => ")
              "__vite__id" ")" [Dispatch "app" "/src/app.css" "a{}"]
              {["__vite__id" := "/src/app.css"]} "/src/app.css"
              eq_refl eq_refl eq_refl eq_refl eq_refl eq_refl
              (lookup_singleton_eq _ _))
    as (upd & rm & Ht & _ & _ & _ & _ & _ & _ & Hrm & _).
  exists upd, rm. split; [exact Ht | exact Hrm].
Defined.




End TransformClaims.

(** ** The bundle rewrite stage: the claims *)

Section BundleClaims.
Import JS Plugin.

(** C6, on the code: the pattern's [.+] is greedy, so that on one line a
    match runs from the first [<link] to the end of the last stylesheet
    link of bundle-local href. A link with an
    external href that stands before a bundle-local stylesheet link on the
    same line is removed with it, as is everything between two such links
    (first and second equation); a stylesheet link on a line of its own is
    removed alone (third equation). *)
Theorem strip_links_removes_external_link :
  strip_links
    (dquoted "<link rel='icon' href='https://cdn.example/i.png'><link rel='stylesheet' href='./a.css'>")
  = ""
  ∧ strip_links
      (dquoted "<link rel='stylesheet' href='./a.css'><script src='https://cdn.example/x.js'></script><link rel='stylesheet' href='./b.css'>")
    = ""
  ∧ strip_links
      (dquoted "<head>" +:+ LF +:+
       dquoted "<link rel='icon' href='https://cdn.example/i.png'>" +:+ LF +:+
       dquoted "<link rel='stylesheet' href='./a.css'>" +:+ LF +:+ "</head>")
    = dquoted "<head>" +:+ LF +:+
      dquoted "<link rel='icon' href='https://cdn.example/i.png'>" +:+ LF +:+
      LF +:+ "</head>".
Proof. by vm_compute. Qed.

(** What the escaping does achieve: every backtick gets a backslash, and on
    a CSS text without backslash, dollar and carriage return the template
    literal evaluates to the trimmed text. *)
Lemma escape_backticks_go (before s : string) :
  replaceAll_go [Lit "`"] "\`" before 0 s
  = match s with
    | EmptyString => EmptyString
    | String c s' =>
        if decide (c = "`"%char)
        then "\`" +:+ replaceAll_go [Lit "`"] "\`" (before +:+ String c "") 0 s'
        else String c (replaceAll_go [Lit "`"] "\`" (before +:+ String c "") 0 s')
    end.
Proof.
  destruct s as [|c s]; [done|]. cbn [replaceAll_go match_here strip_prefix].
  destruct (decide (c = "`"%char)) as [->|Hne].
  - by rewrite decide_True.
  - rewrite decide_False by congruence. done.
Qed.

Lemma escape_backticks_value (before s : string) :
  (∀ c, c ∈ list_ascii_of_string s →
        c ≠ "\"%char ∧ c ≠ "$"%char ∧ c ≠ "013"%char) →
  template_value (replaceAll_go [Lit "`"] "\`" before 0 s) = Some s.
Proof.
  revert before. induction s as [|c s IH]; intros before Hs; [done|].
  rewrite escape_backticks_go.
  assert (Hc : c ≠ "\"%char ∧ c ≠ "$"%char ∧ c ≠ "013"%char)
    by (apply Hs; csimpl; set_solver).
  destruct Hc as (H1 & H2 & H3).
  assert (Hs' : ∀ d, d ∈ list_ascii_of_string s →
                     d ≠ "\"%char ∧ d ≠ "$"%char ∧ d ≠ "013"%char)
    by (intros d Hd; apply Hs; csimpl; set_solver).
  specialize (IH (before +:+ String c "") Hs').
  destruct (decide (c = "`"%char)) as [->|Hne].
  - cbn [String.append template_value].
    rewrite decide_False by done. rewrite decide_True by done.
    rewrite IH. done.
  - cbn [template_value]. rewrite !decide_False by done. by rewrite IH.
Qed.

Lemma escape_css_roundtrip_plain (css : string) :
  (∀ c, c ∈ list_ascii_of_string (trim css) →
        c ≠ "\"%char ∧ c ≠ "$"%char ∧ c ≠ "013"%char) →
  template_value (escape_css css) = Some (trim css).
Proof. apply escape_backticks_value. Qed.

(** C7, on the code: only backticks are escaped. A backslash of the CSS
    text starts an escape sequence of the template literal, and [${] opens a
    substitution: the literal's value is not the CSS text (first to third
    equation). A backtick is escaped and comes back (fourth equation). In
    the current version the style is also part of the replacement text of
    [dispatchCompiled.replace], where [$&] stands for the matched text
    (fifth equation). *)
Theorem escape_css_misses_backslash_and_dollar :
  escape_css ".icon:before{content:'\f101'}" = ".icon:before{content:'\f101'}"
  ∧ template_value (escape_css ".icon:before{content:'\f101'}")
    = Some (".icon:before{content:'" +:+ String "012" "101'}")
  ∧ template_value (escape_css ".a:after{content:'${x}'}") = None
  ∧ template_value (escape_css " .a:after{content:'`'} ")
    = Some ".a:after{content:'`'}"
  ∧ appended_compiled "(d)(args)" "m" (escape_css ".a:after{content:'$&'}")
    = LF +:+ ";(d)(`m`,`.a:after{content:'(args)'}`)".
Proof. by vm_compute. Qed.

Lemma filter_imported_empty (importedCss : gset string) (l : list output) :
  importedCss = ∅ → filter (λ c, fileName c ∈ importedCss) l = [].
Proof.
  intros Himp. induction l as [|c l IH]; [done|].
  rewrite filter_cons_False; [done|]. set_solver.
Qed.

Lemma css_source_typed (bundle : list output) (styles : list output) :
  Forall well_typed bundle → styles ⊆ css_of bundle →
  is_Some (mapM css_source styles).
Proof.
  intros Hwt Hsub. apply mapM_is_Some_2, Forall_forall. intros c Hc.
  apply Hsub, list_elem_of_filter in Hc as [Hcss Hc].
  rewrite Forall_forall in Hwt. destruct (Hwt c Hc) as [_ Ha].
  specialize (Ha Hcss). destruct c; [by eexists|done].
Qed.

Lemma replace_str_first (l replacement pre post : string) :
  indexOf l (pre +:+ l +:+ post) = Some (String.length pre) →
  replace_str l replacement (pre +:+ l +:+ post)
  = pre +:+ GetSubstitution l pre post replacement +:+ post.
Proof.
  intros Hi. unfold replace_str, replace_re.
  rewrite (search_first_occurrence l [] "" pre _ (l +:+ "") post Hi)
    by (cbn [match_here]; by rewrite strip_prefix_app).
  cbn [String.append]. by rewrite append_nil_r.
Qed.

(** C8. On a bundle on which the casts of the code hold, whose JS chunks
    record file names of CSS assets of the bundle, and with the code of the
    nested build, which holds the [(args)] of the dispatcher call:
    [generateBundle] returns, and keeps the number and order of the values.
    A JS chunk whose recorded set is empty is left as it was, code and
    metadata. A JS chunk whose set is not empty gets appended to its code a
    line feed, a semicolon and the code of the nested build with, in the
    place of its first [(args)], what [replace] makes of the argument list
    [(`name`,`style`)]: the chunk's name and the texts of its CSS assets,
    each trimmed and with a backslash before every backtick, one after the
    other; that is the argument list itself when no dollar of it starts a
    replacement pattern. The chunk's set is cleared, and afterwards the set
    of every JS chunk is empty. *)
Theorem generateBundle_chunks (pre post : string) (bundle : list output) :
  Forall well_typed bundle →
  (∀ f name code importedCss,
     OutputChunk f name code (Some importedCss) ∈ bundle →
     endsWith f ".js" = true →
     ∀ n, n ∈ importedCss → ∃ c, c ∈ css_of bundle ∧ fileName c = n) →
  indexOf "(args)" (pre +:+ "(args)" +:+ post) = Some (String.length pre) →
  ∃ bundle',
    generateBundle (pre +:+ "(args)" +:+ post) bundle = Some bundle'
    ∧ length bundle' = length bundle
    ∧ (∀ i f name code importedCss,
         bundle !! i = Some (OutputChunk f name code (Some importedCss)) →
         endsWith f ".js" = true →
         (importedCss = ∅ →
          bundle' !! i = Some (OutputChunk f name code (Some importedCss)))
         ∧ (importedCss ≠ ∅ →
            ∃ sources,
              sources ≠ []
              ∧ mapM css_source
                  (filter (λ c, fileName c ∈ importedCss) (css_of bundle))
                = Some sources
              ∧ let style :=
                  join "" ((λ source, replaceAll_str "`" "\`" (trim source))
                           <$> sources) in
                let arguments := "(`" +:+ name +:+ "`,`" +:+ style +:+ "`)" in
                bundle' !! i
                = Some (OutputChunk f name
                          (code +:+ LF +:+ ";" +:+ pre +:+
                           GetSubstitution "(args)" pre post arguments +:+ post)
                          (Some ∅))
                ∧ (substitution_free arguments = true →
                   bundle' !! i
                   = Some (OutputChunk f name
                             (code +:+ LF +:+ ";" +:+ pre +:+ arguments +:+ post)
                             (Some ∅)))))
    ∧ (∀ i f name code importedCss,
         bundle' !! i = Some (OutputChunk f name code (Some importedCss)) →
         endsWith f ".js" = true → importedCss = ∅).
Proof.
  intros Hwt Hrec Hargs. unfold generateBundle, generateBundle_with.
  set (dispatchCompiled := pre +:+ "(args)" +:+ post).
  set (F := λ o : output, if endsWith (fileName o) ".html" then rewrite_html o
                          else if endsWith (fileName o) ".js"
                               then rewrite_chunk "" (appended_compiled dispatchCompiled)
                                      (css_of bundle) o
                               else Some o).
  assert (Hchunk : ∀ f name code importedCss,
            OutputChunk f name code (Some importedCss) ∈ bundle →
            endsWith f ".js" = true →
            F (OutputChunk f name code (Some importedCss))
            = rewrite_chunk "" (appended_compiled dispatchCompiled) (css_of bundle)
                (OutputChunk f name code (Some importedCss))).
  { intros f name code imp Hin Hjs. unfold F. csimpl. rewrite Hjs.
    destruct (endsWith f ".html") eqn:Hh; [|done].
    rewrite Forall_forall in Hwt. destruct (Hwt _ Hin) as [Ha _].
    csimpl in Ha. by destruct (Ha Hh). }
  assert (Hstyles : ∀ f name code importedCss,
            OutputChunk f name code (Some importedCss) ∈ bundle →
            endsWith f ".js" = true →
            filter (λ c, fileName c ∈ importedCss) (css_of bundle) = [] →
            importedCss = ∅).
  { intros f name code imp Hin Hjs Hs. apply set_eq. intros n. split; [|set_solver].
    intros Hn. destruct (Hrec f name code imp Hin Hjs n Hn) as (c & Hc & <-).
    exfalso. eapply filter_nil_not_elem_of; [exact Hs| |exact Hc]. done. }
  assert (Hsome : is_Some (mapM F bundle)).
  { apply mapM_is_Some_2, Forall_forall. intros o Ho. unfold F. csimpl.
    rewrite Forall_forall in Hwt. destruct (Hwt o Ho) as [Hhtml _].
    destruct (endsWith (fileName o) ".html").
    - destruct o as [f [source|t]|]; [done|by destruct (Hhtml eq_refl)..].
    - destruct (endsWith (fileName o) ".js"); [|done].
      destruct o as [|f name code [imp|]]; try done. csimpl.
      case_decide; [done|].
      match goal with |- is_Some (?m ≫= _) => assert (Hs : is_Some m) end.
      { apply (css_source_typed bundle); [by apply Forall_forall|].
        intros c [_ Hc]%list_elem_of_filter. done. }
      destruct Hs as [srcs Hs]. rewrite Hs. done. }
  destruct Hsome as [bundle' Hb]. exists bundle'.
  pose proof (mapM_Some_1 _ _ _ Hb) as HF.
  split_and!.
  - done.
  - symmetry. by eapply Forall2_length.
  - intros i f name code imp Hi Hjs.
    pose proof (list_elem_of_lookup_2 _ _ _ Hi) as Hin.
    destruct (Forall2_lookup_l _ _ _ _ _ HF Hi) as (y & Hy & HFy).
    rewrite (Hchunk f name code imp Hin Hjs) in HFy.
    csimpl in HFy.
    split.
    + intros Himp. rewrite (filter_imported_empty imp _ Himp) in HFy.
      csimpl in HFy. congruence.
    + intros Himp.
      assert (Hs : filter (λ c, fileName c ∈ imp) (css_of bundle) ≠ []).
      { intros Hs. by apply Himp, (Hstyles f name code imp Hin Hjs). }
      rewrite decide_False in HFy by done.
      destruct (mapM css_source _) as [srcs|] eqn:E; [|done].
      exists srcs. csimpl in HFy. injection HFy as <-.
      assert (Hne : srcs ≠ []).
      { intros ->. apply mapM_Some_1, Forall2_nil_inv_r in E. done. }
      assert (Hcode : appended_compiled dispatchCompiled name
                        (join "" (escape_css <$> srcs))
                      = LF +:+ ";" +:+ pre +:+
                        GetSubstitution "(args)" pre post
                          ("(`" +:+ name +:+ "`,`" +:+
                           join "" ((λ source, replaceAll_str "`" "\`" (trim source))
                                    <$> srcs) +:+ "`)") +:+ post).
      { unfold appended_compiled, dispatchCompiled.
        by rewrite (replace_str_first "(args)" _ pre post Hargs). }
      split_and!; [done|done| |].
      * rewrite Hy, Hcode. done.
      * intros Hfree. rewrite Hy, Hcode.
        by rewrite GetSubstitution_free.
  - intros i f name code imp Hi Hjs.
    destruct (Forall2_lookup_r _ _ _ _ _ HF Hi) as (x & Hx & HFx).
    pose proof (list_elem_of_lookup_2 _ _ _ Hx) as Hin.
    unfold F in HFx.
    destruct (endsWith (fileName x) ".html") eqn:Hh.
    { destruct x as [f' [source|t]|]; csimpl in HFx; done. }
    destruct (endsWith (fileName x) ".js") eqn:Hj.
    + destruct x as [|f' name' code' [imp'|]]; csimpl in HFx; try congruence.
      case_decide as Hs.
      * injection HFx as -> -> -> ->.
        by apply (Hstyles f name code imp Hin Hjs).
      * destruct (mapM css_source _); csimpl in HFx; [|done].
        by injection HFx as _ _ _ <-.
    + injection HFx as ->. csimpl in Hj. congruence.
Qed.

(** The specification's scenario A with a second chunk that imports no
    style. *)
Lemma generateBundle_chunks_witness :
  ∃ bundle',
    generateBundle ("(function(id,style){})" +:+ "(args)" +:+ ";")
      [OutputAsset "index.html" (Text (dquoted "<link rel='stylesheet' href='./a.css'>"));
       OutputAsset "a.css" (Text (" .x{content:'`'} " +:+ LF));
       OutputChunk "main.js" "main" "run()" (Some {["a.css"]});
       OutputChunk "util.js" "util" "help()" (Some ∅)]
    = Some bundle'
    ∧ bundle' !! 2
      = Some (OutputChunk "main.js" "main"
                ("run()" +:+ LF +:+ ";(function(id,style){})(`main`,`.x{content:'\`'}`);")
                (Some ∅))
    ∧ bundle' !! 3 = Some (OutputChunk "util.js" "util" "help()" (Some ∅)).
Proof.
  assert (Hwt : Forall well_typed
            [OutputAsset "index.html" (Text (dquoted "<link rel='stylesheet' href='./a.css'>"));
             OutputAsset "a.css" (Text (" .x{content:'`'} " +:+ LF));
             OutputChunk "main.js" "main" "run()" (Some {["a.css"]});
             OutputChunk "util.js" "util" "help()" (Some ∅)]).
  { repeat constructor; csimpl; discriminate. }
  destruct (generateBundle_chunks "(function(id,style){})" ";" _ Hwt)
    as (b' & Hb & _ & Hchunks & _).
  - intros f name code imp Hin Hjs n Hn.
    exists (OutputAsset "a.css" (Text (" .x{content:'`'} " +:+ LF))).
    split; [vm_compute; repeat constructor|].
    repeat (apply elem_of_cons in Hin as [Hin|Hin]; [try discriminate|]);
      [| |by apply elem_of_nil in Hin].
    + injection Hin as _ _ _ ->. by apply elem_of_singleton in Hn as ->.
    + injection Hin as _ _ _ ->. by apply elem_of_empty in Hn.
  - reflexivity.
  - exists b'. split; [exact Hb|]. split.
    + destruct (Hchunks 2 "main.js" "main" "run()" {["a.css"]} eq_refl eq_refl)
        as [_ Hmain].
      destruct Hmain as (sources & _ & Hsrc & _ & Hfree).
      { intros H. apply (f_equal (λ s, size s)) in H. by vm_compute in H. }
      injection Hsrc as <-. exact (Hfree eq_refl).
    + by destruct (Hchunks 3 "util.js" "util" "help()" ∅ eq_refl eq_refl)
        as [-> _].
Defined.

(** Outside these bundles: a chunk whose recorded set names no CSS asset of
    the bundle is skipped before its set is cleared, and keeps its set. *)
Lemma generateBundle_keeps_unmatched_set :
  generateBundle "(dispatch)(args)"
    [OutputChunk "main.js" "main" "run()" (Some {["gone.css"]})]
  = Some [OutputChunk "main.js" "main" "run()" (Some {["gone.css"]})]
  ∧ ({["gone.css"]} : gset string) ≠ ∅.
Proof.
  split; [by vm_compute|]. intros H. apply (f_equal (λ s, size s)) in H.
  by vm_compute in H.
Qed.

(** The specification's scenarios A and B: the link is stripped from the
    HTML, each chunk that imports the CSS asset ends with a dispatcher call
    that embeds the whole text, and the recorded sets are empty. *)
Example scenario_bundle_rewrite :
  generateBundle "(dispatch)(args)"
    [OutputAsset "index.html"
       (Text (dquoted "<head>" +:+ LF +:+
              dquoted "<link rel='stylesheet' href='./a.css'>" +:+ LF +:+ "</head>"));
     OutputAsset "a.css" (Text ".x{color:red}");
     OutputChunk "main.js" "main" "run()" (Some {["a.css"]});
     OutputChunk "lazy.js" "lazy" "later()" (Some {["a.css"]})]
  = Some
      [OutputAsset "index.html" (Text ("<head>" +:+ LF +:+ LF +:+ "</head>"));
       OutputAsset "a.css" (Text ".x{color:red}");
       OutputChunk "main.js" "main"
         ("run()" +:+ LF +:+ ";(dispatch)(`main`,`.x{color:red}`)") (Some ∅);
       OutputChunk "lazy.js" "lazy"
         ("later()" +:+ LF +:+ ";(dispatch)(`lazy`,`.x{color:red}`)") (Some ∅)].
Proof. by vm_compute. Qed.

End BundleClaims.

(** ** More on the registry and dispatcher protocol *)

Section RuntimeMore.
Import JS Runtime.

Lemma run_app (sep : string) (h h2 : list op) :
  run sep (h ++ h2) = foldl (step sep) (run sep h) h2.
Proof. unfold run. by rewrite foldl_app. Qed.

Lemma calls_for_app (m : string) (h h2 : list op) :
  Spec.calls_for m (h ++ h2) = Spec.calls_for m h ++ Spec.calls_for m h2.
Proof. unfold Spec.calls_for. by rewrite omap_app. Qed.

(** A listener of a style element stays registered. *)
Lemma style_listeners_kept (sep : string) (h h2 : list op) (t : string) (el : nat) :
  (t, el) ∈ style_listeners (run sep h) →
  (t, el) ∈ style_listeners (run sep (h ++ h2)).
Proof.
  intros Hin. induction h2 as [|o h2 IH] using rev_ind.
  - by rewrite app_nil_r.
  - rewrite app_assoc, run_snoc. destruct (run_wf sep (h ++ h2)) as [Hwf _].
    destruct o as [m id style|m]; cbn [step].
    + destruct (dispatch_spec sep m id style _ Hwf) as (_ & _ & _ & _ & Hsl & _).
      by rewrite Hsl.
    + pose proof (getStyle_spec sep m _ Hwf) as Hspec. cbv zeta in Hspec.
      destruct Hspec as (_ & _ & _ & _ & Hsl & _). rewrite Hsl. set_solver.
Qed.

Lemma getStyle_listener (sep : string) (h : list op) (m : string) :
  (styles_event m, length (elements (run sep h)))
  ∈ style_listeners (run sep (h ++ [GetStyle m])).
Proof.
  rewrite run_snoc. cbn [step]. destruct (run_wf sep h) as [Hwf _].
  pose proof (getStyle_spec sep m _ Hwf) as Hspec. cbv zeta in Hspec.
  destruct Hspec as (_ & _ & _ & _ & Hsl & _). rewrite Hsl. set_solver.
Qed.

(** X1. The style element that a call of [getStyle] creates holds, after
    every later sequence of calls, the aggregate of its identity as of the
    calls made so far: no subscribed element is ever left with a stale
    text. *)
Theorem style_element_in_sync (sep : string) (h1 h2 : list op) (m : string) :
  elements (run sep (h1 ++ GetStyle m :: h2)) !! length (elements (run sep h1))
  = Some (Spec.aggregate_own_order sep
            (Spec.calls_for m (h1 ++ GetStyle m :: h2))).
Proof.
  pose proof (style_listeners_kept sep (h1 ++ [GetStyle m]) h2 _ _
                (getStyle_listener sep h1 m)) as Hin.
  rewrite <- app_assoc in Hin. csimpl in Hin.
  destruct (run_wf sep (h1 ++ GetStyle m :: h2)) as [_ Hst].
  rewrite (wf_style_content _ _ Hst _ _ Hin). by rewrite aggregate_run.
Qed.

(** X2. However many calls are made, [dispatch] registers one listener of
    the request event for each identity, at the first call for it: the event
    types of the registered listeners are distinct, and an identity has its
    listener exactly when some call was made for it. *)
Theorem one_request_listener_per_identity (sep : string) (h : list op) :
  NoDup (request_listeners (run sep h)).*1
  ∧ ∀ m, (∃ r, (request_event m, (m, r)) ∈ request_listeners (run sep h))
         ↔ Spec.calls_for m h ≠ [].
Proof.
  destruct (run_wf sep h) as [[Hv _ Hnd Hs Hc] _]. split; [done|].
  intros m. pose proof (registry_run sep m h) as Hr. unfold registry_of in Hr.
  split.
  - intros [r Hin]. apply Hs in Hin as [_ Hw]. rewrite Hw in Hr. csimpl in Hr.
    destruct (lookup_lt_is_Some_2 _ _ (Hv _ _ Hw)) as [o Ho]. rewrite Ho in Hr.
    by case_decide.
  - intros Hne. rewrite decide_False in Hr by done.
    destruct (window (run sep h) !! styles_key m) as [r|] eqn:Hw; [|done].
    exists r. by apply Hc.
Qed.

Lemma Object_values_singleton (k v : string) : Object_values [(k, v)] = [v].
Proof.
  unfold Object_values, js_order, index_sorted. csimpl.
  rewrite filter_cons, filter_nil. csimpl.
  by destruct (array_index k).
Qed.

(** X3. A style element created before the first call of [dispatch] for
    its identity: [getStyle] dispatches the request event, which nothing
    answers, and the element is empty; the first call of [dispatch] for the
    identity then writes its text to the element. *)
Theorem getStyle_before_first_publish (sep : string) (h : list op) (m : string) :
  Spec.calls_for m h = [] →
  let p := run sep h in
  let el := (getStyle sep m p).1 in
  let p' := (getStyle sep m p).2 in
  log p' = log p ++ [(request_event m, None)]
  ∧ elements p' !! el = Some ""
  ∧ ∀ fid style, fid ≠ "__proto__" →
      elements (dispatch sep m fid style p') !! el = Some style.
Proof.
  intros Hcs. destruct (run_wf sep h) as [Hwf _].
  pose proof (getStyle_spec sep m (run sep h) Hwf) as Hspec.
  pose proof (getStyle_wf_registry sep m (run sep h) Hwf) as Hwf'.
  cbv zeta in *.
  destruct Hspec as (Hel & Hh & Hw & _ & Hsl & _ & Hreg).
  pose proof (registry_run sep m h) as Hr. rewrite decide_True in Hr by done.
  rewrite Hr in Hreg. destruct Hreg as [Hlog Hels].
  assert (Hlk : elements (getStyle sep m (run sep h)).2
                !! (getStyle sep m (run sep h)).1 = Some "").
  { rewrite Hels, Hel, lookup_app_r, Nat.sub_diag by lia. done. }
  split_and!; [done|done|].
  intros fid style Hfid.
  destruct (dispatch_spec sep m fid style _ Hwf') as (_ & _ & _ & _ & _ & _ & Hd).
  rewrite Hd, Hsl, decide_True by set_solver. rewrite Hlk. csimpl.
  rewrite (registry_of_ext m (run sep h)) by done. rewrite Hr. csimpl.
  unfold js_set. rewrite decide_False by done. csimpl.
  by rewrite Object_values_singleton.
Qed.

Lemma getStyle_before_first_publish_witness :
  Spec.calls_for "app" [Dispatch "other" "main" "b{}"] = []
  ∧ elements (dispatch "" "app" "main" "a{}"
                (getStyle "" "app" (run "" [Dispatch "other" "main" "b{}"])).2)
    !! (getStyle "" "app" (run "" [Dispatch "other" "main" "b{}"])).1
    = Some "a{}".
Proof.
  split; [reflexivity|].
  refine (proj2 (proj2 (getStyle_before_first_publish ""
            [Dispatch "other" "main" "b{}"] "app" eq_refl)) "main" "a{}" _).
  discriminate.
Defined.

Lemma js_get_put_lookup (k v k' : string) (o : jsobj) :
  js_get (js_put k v o) k' = if decide (k' = k) then Some v else js_get o k'.
Proof.
  induction o as [|[j w] o IH]; csimpl.
  - by destruct (decide (k' = k)).
  - destruct (decide (k = j)) as [->|Hne]; csimpl.
    + by destruct (decide (k' = j)).
    + rewrite IH. destruct (decide (k' = j)) as [->|]; [|done].
      by rewrite decide_False by done.
Qed.

(** X4. After a call [dispatch(id, style)] with an id other than
    [__proto__], the registry of the identity holds [style] under [id], and
    under every other id what it held before: a write never changes another
    fragment's text. *)
Theorem dispatch_read_after_write
    (sep : string) (h : list op) (m fid style : string) :
  fid ≠ "__proto__" →
  let o := default [] (registry_of m (run sep h)) in
  let o' := default [] (registry_of m (dispatch sep m fid style (run sep h))) in
  js_get o' fid = Some style
  ∧ ∀ fid', fid' ≠ fid → js_get o' fid' = js_get o fid'.
Proof.
  intros Hfid. csimpl. destruct (run_wf sep h) as [Hwf _].
  destruct (dispatch_spec sep m fid style _ Hwf) as (_ & Hm & _).
  rewrite Hm. csimpl.
  unfold js_set. rewrite decide_False by done. split.
  - by rewrite js_get_put_lookup, decide_True.
  - intros fid' Hne. by rewrite js_get_put_lookup, decide_False.
Qed.

Lemma dispatch_read_after_write_witness :
  "main" ≠ "__proto__"
  ∧ js_get (default [] (registry_of "app"
              (dispatch "" "app" "main" "b{}"
                 (run "" [Dispatch "app" "main" "a{}"; Dispatch "app" "lazy" "c{}"]))))
      "main" = Some "b{}".
Proof.
  assert (Hne : "main" ≠ "__proto__") by discriminate.
  split; [exact Hne|].
  exact (proj1 (dispatch_read_after_write ""
           [Dispatch "app" "main" "a{}"; Dispatch "app" "lazy" "c{}"]
           "app" "main" "b{}" Hne)).
Defined.

Lemma js_put_put (k v1 v2 : string) (o : jsobj) :
  js_put k v2 (js_put k v1 o) = js_put k v2 o.
Proof.
  induction o as [|[j w] o IH]; csimpl.
  - by rewrite decide_True.
  - destruct (decide (k = j)) as [->|Hne]; csimpl.
    + by rewrite decide_True.
    + rewrite decide_False by done. by rewrite IH.
Qed.

(** X5. The last write wins: two calls of [dispatch] for the same identity
    and fragment id, one after the other, leave the registries, the aggregate
    and the style elements as the second call alone would. *)
Theorem dispatch_overwrite (sep : string) (h : list op) (m fid s1 s2 : string) :
  let p := run sep h in
  let p12 := dispatch sep m fid s2 (dispatch sep m fid s1 p) in
  let p2 := dispatch sep m fid s2 p in
  (∀ m', registry_of m' p12 = registry_of m' p2)
  ∧ aggregate sep m p12 = aggregate sep m p2
  ∧ elements p12 = elements p2.
Proof.
  csimpl. destruct (run_wf sep h) as [Hwf _].
  destruct (dispatch_spec sep m fid s1 _ Hwf) as (Hwf1 & Hm1 & Ho1 & _ & Hsl1 & _ & He1).
  destruct (dispatch_spec sep m fid s2 _ Hwf1) as (_ & Hm12 & Ho12 & _ & _ & _ & He12).
  destruct (dispatch_spec sep m fid s2 _ Hwf) as (_ & Hm2 & Ho2 & _ & _ & _ & He2).
  rewrite Hm1 in Hm12, He12. csimpl in Hm12. csimpl in He12.
  assert (Heq : js_set fid s2 (js_set fid s1 (default [] (registry_of m (run sep h))))
                = js_set fid s2 (default [] (registry_of m (run sep h)))).
  { unfold js_set. case_decide; [done|]. apply js_put_put. }
  rewrite Heq in Hm12, He12.
  split_and!.
  - intros m'. destruct (decide (m' = m)) as [->|Hne].
    + by rewrite Hm12, Hm2.
    + by rewrite Ho12, Ho1, Ho2.
  - unfold aggregate. by rewrite Hm12, Hm2.
  - apply list_eq. intros i. rewrite He12, He2, Hsl1, He1.
    case_decide; [|done]. by destruct (elements (run sep h) !! i).
Qed.

Lemma calls_for_own (m : string) (cs : list (string * string)) :
  Spec.calls_for m ((λ c, Dispatch m c.1 c.2) <$> cs) = cs.
Proof.
  induction cs as [|[i s] cs IH]; [done|]. unfold Spec.calls_for in *. csimpl.
  rewrite decide_True by done. csimpl. by rewrite IH.
Qed.

(** X6. The registry and the aggregate of an identity are those that the
    calls of [dispatch] for that identity alone would build: the calls of
    [getStyle] and the calls for other identities, wherever they stand in the
    history, change neither. *)
Theorem registry_depends_on_own_calls (sep : string) (h : list op) (m : string) :
  let own := (λ c, Dispatch m c.1 c.2) <$> Spec.calls_for m h in
  registry_of m (run sep h) = registry_of m (run sep own)
  ∧ aggregate sep m (run sep h) = aggregate sep m (run sep own).
Proof.
  csimpl. unfold aggregate. rewrite !registry_run, calls_for_own. done.
Qed.

Lemma js_order_snoc_plain {A} (key : A → string) (l : list A) (x : A) :
  array_index (key x) = None → js_order key (l ++ [x]) = js_order key l ++ [x].
Proof.
  intros Hx. unfold js_order, index_sorted.
  rewrite foldr_app, filter_app. csimpl. rewrite Hx.
  rewrite filter_cons_True, filter_nil by done. by rewrite app_assoc.
Qed.

(** X7. The position of a fragment: a call of [dispatch] for a fragment id
    that the registry holds moves no fragment, and a call for a new id that
    is no array index (and not [__proto__]) puts the fragment last. *)
Theorem dispatch_fragment_position
    (sep : string) (h : list op) (m fid style : string) :
  let o := default [] (registry_of m (run sep h)) in
  let o' := default [] (registry_of m (dispatch sep m fid style (run sep h))) in
  (fid ∈ o.*1 → Object_keys o' = Object_keys o)
  ∧ (fid ∉ o.*1 → array_index fid = None → fid ≠ "__proto__" →
     Object_keys o' = Object_keys o ++ [fid]).
Proof.
  csimpl. destruct (run_wf sep h) as [Hwf _].
  destruct (dispatch_spec sep m fid style _ Hwf) as (_ & Hm & _).
  rewrite Hm. csimpl.
  split.
  - intros Hin. unfold js_set. case_decide as Hp.
    + done.
    + by apply Object_keys_put_existing.
  - intros Hnin Hidx Hp. unfold js_set. rewrite decide_False by done.
    rewrite !Object_keys_order, js_put_keys, decide_False by done.
    by apply js_order_snoc_plain.
Qed.

Lemma dispatch_fragment_position_witness :
  Object_keys
    (default [] (registry_of "shop"
       (dispatch "" "shop" "b" "y" (run "" [Dispatch "shop" "a" "x"]))))
  = Object_keys
      (default [] (registry_of "shop" (run "" [Dispatch "shop" "a" "x"])))
    ++ ["b"].
Proof.
  apply (proj2 (dispatch_fragment_position "" [Dispatch "shop" "a" "x"]
                  "shop" "b" "y")).
  - vm_compute. intros H. inversion H as [|? ? ? H2]; inversion H2.
  - reflexivity.
  - discriminate.
Defined.

End RuntimeMore.

(** ** More on the plugin's text rewriting *)

Section RewriteMore.
Import JS Plugin Build.

Lemma indexOf_None_cons (l : string) (c : ascii) (s : string) :
  indexOf l (String c s) = None →
  strip_prefix l (String c s) = None ∧ indexOf l s = None.
Proof.
  cbn [indexOf]. destruct (strip_prefix l (String c s)); [done|].
  by destruct (indexOf l s).
Qed.

Lemma indexOf_None_nil (l : string) :
  indexOf l "" = None → strip_prefix l "" = None.
Proof. cbn [indexOf]. by destruct (strip_prefix l ""). Qed.

(** A pattern that starts with a literal text finds nothing in a text
    without that literal. *)
Lemma search_absent (l : string) (re : regex) (before s : string) :
  indexOf l s = None → search (Lit l :: re) before s = None.
Proof.
  revert before. induction s as [|c s IH]; intros before Hi.
  - rewrite search_unfold. cbn [match_here]. by rewrite (indexOf_None_nil l Hi).
  - apply indexOf_None_cons in Hi as [Hp Hi]. rewrite search_unfold.
    cbn [match_here]. rewrite Hp. by apply IH.
Qed.

Lemma replace_re_absent (l : string) (re : regex) (replacement s : string) :
  indexOf l s = None → replace_re (Lit l :: re) replacement s = s.
Proof. intros Hi. unfold replace_re. by rewrite search_absent. Qed.

(** X8. A module without the bundler's style calls, as every module that
    is not a CSS module, goes through [transform] unchanged, in both
    versions of the plugin. *)
Theorem transform_unchanged_without_calls (src name code : string) :
  indexOf "__vite__updateStyle(" code = None →
  indexOf "__vite__removeStyle(" code = None →
  transform src code = code ∧ transform_name src name code = code.
Proof.
  intros Hu Hr. unfold transform, transform_name, transform_with,
    re_updateStyle, re_removeStyle.
  by rewrite !(replace_re_absent "__vite__updateStyle(") by done;
     rewrite !(replace_re_absent "__vite__removeStyle(") by done.
Qed.

Lemma transform_unchanged_without_calls_witness :
  indexOf "__vite__updateStyle(" "import { updateStyle as __vite__updateStyle } from 'x'; render()" = None
  ∧ transform "(id,style)=>{}"
      "import { updateStyle as __vite__updateStyle } from 'x'; render()"
    = "import { updateStyle as __vite__updateStyle } from 'x'; render()".
Proof.
  split; [reflexivity|].
  exact (proj1 (transform_unchanged_without_calls "(id,style)=>{}" "app"
           "import { updateStyle as __vite__updateStyle } from 'x'; render()"
           eq_refl eq_refl)).
Defined.

(** What a match consumes: the text is the matched text followed by the
    rest, and the matched text has no line terminator when the literals of
    the pattern have none. *)
Lemma line_free_app (a b : string) : line_free a → line_free b → line_free (a +:+ b).
Proof.
  unfold line_free. induction a as [|c a IH]; csimpl; [done|].
  intros Ha Hb. apply Forall_cons in Ha as [Hc Ha]. constructor; auto.
Qed.

Lemma any_plus_lazy_split (k : string → option re_match) (s m rest : string) :
  any_plus_lazy k s = Some (m, rest) →
  ∃ a m' s', m = a +:+ m' ∧ s = a +:+ s' ∧ line_free a ∧ k s' = Some (m', rest).
Proof.
  revert m. induction s as [|c s IH]; intros m; cbn [any_plus_lazy]; [done|].
  destruct (is_line_terminator c) eqn:Hc; [done|].
  destruct (k s) as [[m1 r1]|] eqn:Hk.
  - intros [= <- <-]. exists (String c ""), m1, s.
    split_and!; try done. by repeat constructor.
  - destruct (any_plus_lazy k s) as [[m1 r1]|]; [|done].
    intros [= <- <-]. destruct (IH m1 eq_refl) as (a & m' & s' & -> & -> & Ha & Hk').
    exists (String c a), m', s'. split_and!; try done. by constructor.
Qed.

Lemma any_plus_greedy_split (k : string → option re_match) (s m rest : string) :
  any_plus_greedy k s = Some (m, rest) →
  ∃ a m' s', m = a +:+ m' ∧ s = a +:+ s' ∧ line_free a ∧ k s' = Some (m', rest).
Proof.
  revert m. induction s as [|c s IH]; intros m; cbn [any_plus_greedy]; [done|].
  destruct (is_line_terminator c) eqn:Hc; [done|].
  destruct (any_plus_greedy k s) as [[m1 r1]|].
  - intros [= <- <-]. destruct (IH m1 eq_refl) as (a & m' & s' & -> & -> & Ha & Hk').
    exists (String c a), m', s'. split_and!; try done. by constructor.
  - destruct (k s) as [[m1 r1]|] eqn:Hk; [|done].
    intros [= <- <-]. exists (String c ""), m1, s.
    split_and!; try done. by repeat constructor.
Qed.

Lemma strip_prefix_Some (l s rest : string) :
  strip_prefix l s = Some rest → s = l +:+ rest.
Proof.
  revert s. induction l as [|c l IH]; intros s; cbn [strip_prefix].
  - by intros [= ->].
  - destruct s as [|d s]; [done|]. case_decide; [|done]. subst d.
    intros ->%IH. done.
Qed.

Lemma match_here_split (re : regex) (s m rest : string) :
  Forall (λ it, match it with Lit l => line_free l | AnyPlus _ => True end) re →
  match_here re s = Some (m, rest) → s = m +:+ rest ∧ line_free m.
Proof.
  intros Hre. revert s m. induction Hre as [|it re Hit Hre IH]; intros s m.
  - cbn. intros [= <- <-]. split; [done|constructor].
  - destruct it as [l|[|]]; cbn [match_here].
    + destruct (strip_prefix l s) as [s'|] eqn:Hp; [|done].
      apply strip_prefix_Some in Hp as ->.
      destruct (match_here re s') as [[m1 r1]|] eqn:Hm; [|done].
      intros [= <- <-]. destruct (IH _ _ Hm) as [-> Hm1].
      split; [by rewrite append_assoc | by apply line_free_app].
    + intros (a & m' & s' & -> & -> & Ha & Hk)%any_plus_greedy_split.
      destruct (IH _ _ Hk) as [-> Hm'].
      split; [by rewrite append_assoc | by apply line_free_app].
    + intros (a & m' & s' & -> & -> & Ha & Hk)%any_plus_lazy_split.
      destruct (IH _ _ Hk) as [-> Hm'].
      split; [by rewrite append_assoc | by apply line_free_app].
Qed.

Lemma re_link_line_free :
  Forall (λ it, match it with Lit l => line_free l | AnyPlus _ => True end) re_link.
Proof. unfold re_link, line_free. repeat constructor. Qed.

Lemma list_ascii_app (a b : string) :
  list_ascii_of_string (a +:+ b) = list_ascii_of_string a ++ list_ascii_of_string b.
Proof. induction a as [|c a IH]; csimpl; [done|]. by rewrite IH. Qed.

Lemma list_ascii_length (a : string) :
  length (list_ascii_of_string a) = String.length a.
Proof. induction a as [|c a IH]; csimpl; [done|]. by rewrite IH. Qed.

Lemma GetSubstitution_empty (m b a : string) : GetSubstitution m b a "" = "".
Proof. done. Qed.

(** Deleting every match: what is left is the text without some of its
    characters, none of them a line terminator. *)
Lemma delete_matches_spec (re : regex) (before : string) (skip : nat) (s : string) :
  Forall (λ it, match it with Lit l => line_free l | AnyPlus _ => True end) re →
  Forall (λ c, is_line_terminator c = false) (take skip (list_ascii_of_string s)) →
  list_ascii_of_string (replaceAll_go re "" before skip s)
    `sublist_of` list_ascii_of_string s
  ∧ filter (λ c, is_line_terminator c = true)
      (list_ascii_of_string (replaceAll_go re "" before skip s))
    = filter (λ c, is_line_terminator c = true) (list_ascii_of_string s).
Proof.
  intros Hre. revert before skip. induction s as [|c s IH]; intros before skip Hskip.
  - done.
  - cbn [replaceAll_go]. destruct skip as [|n].
    + destruct (match_here re (String c s)) as [[m rest]|] eqn:Hm.
      * destruct (match_here_split re _ _ _ Hre Hm) as [Hs Hlf].
        rewrite GetSubstitution_empty. cbn [String.append].
        destruct m as [|d m]; cbn [String.length].
        -- destruct (IH (before +:+ String c "") 0) as [H1 H2]; [constructor|].
           csimpl. split; [by constructor|].
           rewrite !filter_cons. by rewrite H2.
        -- cbn [String.append] in Hs. injection Hs as <- Hs.
           unfold line_free in Hlf. csimpl in Hlf.
           apply Forall_cons in Hlf as [Hc Hlf].
           destruct (IH (before +:+ String c "") (String.length m)) as [H1 H2].
           { rewrite Hs, list_ascii_app, <- list_ascii_length.
             by rewrite take_app_length. }
           csimpl. split; [by constructor|].
           rewrite filter_cons_False by (by rewrite Hc). done.
      * destruct (IH (before +:+ String c "") 0) as [H1 H2]; [constructor|].
        csimpl. split; [by constructor|].
        rewrite !filter_cons. by rewrite H2.
    + csimpl in Hskip. apply Forall_cons in Hskip as [Hc Hskip].
      destruct (IH (before +:+ String c "") n Hskip) as [H1 H2].
      csimpl. split; [by constructor|].
      rewrite filter_cons_False by (by rewrite Hc). done.
Qed.

Lemma replaceAll_absent (l : string) (re : regex) (replacement before s : string) :
  indexOf l s = None → replaceAll_go (Lit l :: re) replacement before 0 s = s.
Proof.
  revert before. induction s as [|c s IH]; intros before Hi; [done|].
  apply indexOf_None_cons in Hi as [Hp Hi].
  cbn [replaceAll_go match_here]. rewrite Hp. by rewrite IH.
Qed.

(** X9. [strip_links] only deletes: what it returns is the HTML text
    without some of its characters, in the same order; it deletes no line
    terminator, so that every line stays a line; and a text without [<link]
    comes back as it is. *)
Theorem strip_links_only_deletes (source : string) :
  list_ascii_of_string (strip_links source) `sublist_of` list_ascii_of_string source
  ∧ filter (λ c, is_line_terminator c = true) (list_ascii_of_string (strip_links source))
    = filter (λ c, is_line_terminator c = true) (list_ascii_of_string source)
  ∧ (indexOf "<link" source = None → strip_links source = source).
Proof.
  unfold strip_links, replaceAll_re.
  destruct (delete_matches_spec re_link "" 0 source re_link_line_free) as [H1 H2].
  { rewrite take_0. constructor. }
  split_and!; [done|done|]. intros Hi. by apply replaceAll_absent.
Qed.

Lemma strip_links_only_deletes_witness :
  strip_links (dquoted "<script src='./main.js'></script>")
  = dquoted "<script src='./main.js'></script>".
Proof.
  apply (proj2 (proj2 (strip_links_only_deletes
                         (dquoted "<script src='./main.js'></script>")))).
  vm_compute. reflexivity.
Defined.

End RewriteMore.

(** ** More on the bundle rewrite stage *)

Section BundleMore.
Import JS Plugin.

(** Both versions of [generateBundle]. *)
Variable css_sep : string.
Variable appended : string → string → string.

(** Two endings of one file name: one is an ending of the other. *)
Lemma endsWith_two (s a b : string) :
  endsWith s a = true → endsWith s b = true →
  endsWith a b = true ∨ endsWith b a = true.
Proof.
  induction s as [|c s IH].
  - cbn [endsWith]. do 2 case_decide; try done. subst. intros _ _. by left.
  - intros Ha Hb.
    destruct (decide (String c s = a)) as [<-|Hna]; [by left|].
    destruct (decide (String c s = b)) as [<-|Hnb]; [by right|].
    cbn [endsWith] in Ha, Hb.
    rewrite decide_False in Ha by done. rewrite decide_False in Hb by done.
    by apply IH.
Qed.

Lemma css_name_exclusive (f : string) :
  endsWith f ".css" = true →
  endsWith f ".html" = false ∧ endsWith f ".js" = false.
Proof.
  intros Hc. split.
  - destruct (endsWith f ".html") eqn:E; [|done].
    by destruct (endsWith_two f _ _ Hc E).
  - destruct (endsWith f ".js") eqn:E; [|done].
    by destruct (endsWith_two f _ _ Hc E).
Qed.

Lemma generateBundle_with_Forall2 (bundle bundle' : list output) :
  generateBundle_with css_sep appended bundle = Some bundle' →
  Forall2 (λ o o',
      (if endsWith (fileName o) ".html" then rewrite_html o
       else if endsWith (fileName o) ".js"
            then rewrite_chunk css_sep appended (css_of bundle) o
            else Some o) = Some o') bundle bundle'.
Proof. intros H. by apply mapM_Some_1 in H. Qed.

(** What one value of the bundle becomes. *)
Lemma rewrite_value_cases (css : list output) (o o' : output) :
  (if endsWith (fileName o) ".html" then rewrite_html o
   else if endsWith (fileName o) ".js" then rewrite_chunk css_sep appended css o
        else Some o) = Some o' →
  fileName o' = fileName o
  ∧ (endsWith (fileName o) ".html" = false →
     endsWith (fileName o) ".js" = false → o' = o)
  ∧ (∀ f source, o = OutputAsset f (Text source) →
       o' = OutputAsset f (Text (if endsWith f ".html" then strip_links source
                                 else source)))
  ∧ (∀ f t, o = OutputAsset f (Binary t) → o' = o)
  ∧ (∀ f name code importedCss, o' = OutputChunk f name code (Some importedCss) →
       endsWith f ".js" = true →
       filter (λ c, fileName c ∈ importedCss) css = []).
Proof.
  destruct (endsWith (fileName o) ".html") eqn:Hh.
  { destruct o as [f [source|t]|]; csimpl in *; [|done..]. intros [= <-]. csimpl.
    split_and!; try done. intros f' source' [= <- <-]. by rewrite Hh. }
  destruct (endsWith (fileName o) ".js") eqn:Hj.
  - destruct o as [f source|f name code [imp|]]; csimpl in *.
    + intros [= <-]. split_and!; try done.
      intros f' source' [= <- ->]. by rewrite Hh.
    + case_decide as Hs.
      * intros [= <-]. split_and!; try done. by intros ???? [= <- _ _ <-].
      * destruct (mapM css_source _); csimpl; [|done]. intros [= <-].
        split_and!; try done. intros ???? [= <- _ _ <-] _.
        by apply filter_imported_empty.
    + intros [= <-]. split_and!; try done.
  - intros [= <-]. split_and!; try done.
    + intros f source ->. csimpl in Hh. by rewrite Hh.
    + intros f name code imp -> Hjs. csimpl in Hj. congruence.
Qed.

Lemma css_of_kept (bundle0 bundle bundle' : list output) :
  Forall2 (λ o o',
      (if endsWith (fileName o) ".html" then rewrite_html o
       else if endsWith (fileName o) ".js"
            then rewrite_chunk css_sep appended (css_of bundle0) o
            else Some o) = Some o') bundle bundle' →
  css_of bundle' = css_of bundle.
Proof.
  unfold css_of. induction 1 as [|o o' l l' Ho Hl IH]; [done|].
  destruct (rewrite_value_cases _ _ _ Ho) as (Hf & Hsame & _).
  rewrite !filter_cons, Hf, IH.
  destruct (decide (endsWith (fileName o) ".css" = true)) as [Hc|]; [|done].
  destruct (css_name_exclusive _ Hc) as [Hh Hj]. by rewrite (Hsame Hh Hj).
Qed.

(** X10. [generateBundle] keeps the values of the bundle in number, order
    and file name; it leaves every value that is named neither [*.html] nor
    [*.js] as it is, so that the CSS assets stay in the bundle, unchanged;
    and of an asset it changes the source only when the asset is named
    [*.html], to the source without the links; the source of an asset that
    is an array of bytes is never changed. *)
Theorem generateBundle_keeps_other_values (bundle bundle' : list output) :
  generateBundle_with css_sep appended bundle = Some bundle' →
  fileName <$> bundle' = fileName <$> bundle
  ∧ css_of bundle' = css_of bundle
  ∧ (∀ i o, bundle !! i = Some o →
       endsWith (fileName o) ".html" = false →
       endsWith (fileName o) ".js" = false → bundle' !! i = Some o)
  ∧ (∀ i f source, bundle !! i = Some (OutputAsset f (Text source)) →
       bundle' !! i
       = Some (OutputAsset f (Text (if endsWith f ".html" then strip_links source
                                    else source))))
  ∧ (∀ i f t, bundle !! i = Some (OutputAsset f (Binary t)) →
       bundle' !! i = Some (OutputAsset f (Binary t))).
Proof.
  intros Hb. pose proof (generateBundle_with_Forall2 _ _ Hb) as HF.
  split_and!.
  - clear Hb. induction HF as [|o o' l l' Ho Hl IH]; [done|]. csimpl.
    destruct (rewrite_value_cases _ _ _ Ho) as (-> & _). by rewrite IH.
  - by eapply css_of_kept.
  - intros i o Hi Hh Hj.
    destruct (Forall2_lookup_l _ _ _ _ _ HF Hi) as (o' & Hi' & Ho).
    destruct (rewrite_value_cases _ _ _ Ho) as (_ & Hsame & _).
    by rewrite Hi', (Hsame Hh Hj).
  - intros i f source Hi.
    destruct (Forall2_lookup_l _ _ _ _ _ HF Hi) as (o' & Hi' & Ho).
    destruct (rewrite_value_cases _ _ _ Ho) as (_ & _ & Ha & _).
    by rewrite Hi', (Ha f source eq_refl).
  - intros i f t Hi.
    destruct (Forall2_lookup_l _ _ _ _ _ HF Hi) as (o' & Hi' & Ho).
    destruct (rewrite_value_cases _ _ _ Ho) as (_ & _ & _ & Hbin & _).
    by rewrite Hi', (Hbin f t eq_refl).
Qed.

(** X11. When [generateBundle] throws, in both versions, given the code of
    the nested build: exactly when the bundle holds a value named [*.html]
    that is no asset with a string as source (the source of a chunk is
    undefined and an array of bytes has no [replaceAll]), or a chunk named
    [*.js] whose recorded set names a value named [*.css] that is a chunk,
    whose [source] is undefined too. The hook of the current version throws
    exactly when the nested build does or on these bundles. *)
Theorem generateBundle_throws_iff (bundle : list output) :
  let throws :=
    (∃ o, o ∈ bundle ∧ endsWith (fileName o) ".html" = true ∧ ¬ is_text_asset o)
    ∨ (∃ f name code importedCss f' name' code' md',
         OutputChunk f name code (Some importedCss) ∈ bundle
         ∧ endsWith f ".js" = true
         ∧ OutputChunk f' name' code' md' ∈ bundle
         ∧ endsWith f' ".css" = true ∧ f' ∈ importedCss) in
  (generateBundle_with css_sep appended bundle = None ↔ throws)
  ∧ ∀ built, generateBundle_hook built bundle = None ↔ built = None ∨ throws.
Proof.
  assert (Hgen : ∀ sep app,
    generateBundle_with sep app bundle = None
    ↔ (∃ o, o ∈ bundle ∧ endsWith (fileName o) ".html" = true ∧ ¬ is_text_asset o)
      ∨ (∃ f name code importedCss f' name' code' md',
           OutputChunk f name code (Some importedCss) ∈ bundle
           ∧ endsWith f ".js" = true
           ∧ OutputChunk f' name' code' md' ∈ bundle
           ∧ endsWith f' ".css" = true ∧ f' ∈ importedCss)).
  { intros sep app.
    unfold generateBundle_with. rewrite mapM_None, Exists_exists. split.
    - intros (o & Ho & HF).
      destruct (endsWith (fileName o) ".html") eqn:Hh.
      { left. exists o. split_and!; [done|done|].
        destruct o as [f [source|t]|]; [done|by intros []..]. }
      destruct (endsWith (fileName o) ".js") eqn:Hj; [|done].
      destruct o as [|f name code [imp|]]; csimpl in *; try done.
      case_decide as Hs; [done|].
      destruct (mapM css_source _) as [srcs|] eqn:Hm; [done|].
      apply mapM_None, Exists_exists in Hm as (c & Hc & Hsrc).
      apply list_elem_of_filter in Hc as [Himp Hc].
      apply list_elem_of_filter in Hc as [Hcss Hc].
      destruct c as [|f' name' code' md']; [done|]. right.
      by exists f, name, code, imp, f', name', code', md'.
    - intros [(o & Ho & Hh & Hnt)
             |(f & name & code & imp & f' & name' & code' & md' & Ho & Hj & Hc & Hcss & Himp)].
      + exists o. split; [done|]. rewrite Hh.
        destruct o as [f [source|t]|]; csimpl; [|done..]. by destruct Hnt.
      + exists (OutputChunk f name code (Some imp)). split; [done|]. csimpl.
        destruct (endsWith f ".html"); [done|]. rewrite Hj.
        match goal with |- context [decide (?l = [])] =>
          assert (Hin : OutputChunk f' name' code' md' ∈ l) end.
        { apply list_elem_of_filter. split; [done|].
          apply list_elem_of_filter. by split. }
        rewrite decide_False by (intros Hnil; rewrite Hnil in Hin; by apply elem_of_nil in Hin).
        match goal with |- ?m ≫= _ = None => assert (Hm : m = None) end.
        { apply mapM_None, Exists_exists. by exists (OutputChunk f' name' code' md'). }
        by rewrite Hm. }
  cbv zeta. split; [apply Hgen|].
  intros [dispatchCompiled|]; csimpl.
  - unfold generateBundle. rewrite Hgen. split; [by right|]. by intros [?|?].
  - split; [by left|done].
Qed.

(** X12. No second injection: [generateBundle] on a bundle that it returned
    returns again, and leaves every value that is not named [*.html] as it
    is; no chunk gets a second dispatcher invocation. *)
Theorem generateBundle_again (bundle bundle' : list output) :
  generateBundle_with css_sep appended bundle = Some bundle' →
  ∃ bundle'',
    generateBundle_with css_sep appended bundle' = Some bundle''
    ∧ ∀ i o, bundle' !! i = Some o →
        endsWith (fileName o) ".html" = false → bundle'' !! i = Some o.
Proof.
  intros Hb. pose proof (generateBundle_with_Forall2 _ _ Hb) as HF.
  pose proof (css_of_kept _ _ _ HF) as Hcss.
  assert (Hstep : ∀ o', o' ∈ bundle' →
            is_Some (if endsWith (fileName o') ".html" then rewrite_html o'
                     else if endsWith (fileName o') ".js"
                          then rewrite_chunk css_sep appended (css_of bundle') o'
                          else Some o')
            ∧ (endsWith (fileName o') ".html" = false →
               (if endsWith (fileName o') ".js"
                then rewrite_chunk css_sep appended (css_of bundle') o'
                else Some o') = Some o')).
  { intros o' Ho'. apply list_elem_of_lookup in Ho' as [i Hi].
    destruct (Forall2_lookup_r _ _ _ _ _ HF Hi) as (o & _ & Ho).
    destruct (rewrite_value_cases _ _ _ Ho) as (Hf & _ & Ha & _ & Hclear).
    assert (Hjs : endsWith (fileName o') ".js" = true →
                  rewrite_chunk css_sep appended (css_of bundle') o' = Some o').
    { intros Hj. destruct o' as [|f name code [imp|]]; try done. csimpl.
      rewrite Hcss, (Hclear f name code imp eq_refl Hj). done. }
    destruct (endsWith (fileName o') ".html") eqn:Hh.
    - split; [|done]. destruct o as [f [source|t]|f name code md].
      + rewrite (Ha f source eq_refl). done.
      + rewrite Hf in Hh. csimpl in Ho. csimpl in Hh. rewrite Hh in Ho. done.
      + rewrite Hf in Hh. csimpl in Ho. csimpl in Hh. rewrite Hh in Ho. done.
    - destruct (endsWith (fileName o') ".js") eqn:Hj.
      + rewrite (Hjs eq_refl). by split.
      + by split. }
  destruct (mapM_is_Some_2
              (λ o', if endsWith (fileName o') ".html" then rewrite_html o'
                     else if endsWith (fileName o') ".js"
                          then rewrite_chunk css_sep appended (css_of bundle') o'
                          else Some o') bundle') as [bundle'' Hb''].
  { apply Forall_forall. intros o' Ho'. by apply Hstep. }
  exists bundle''. split; [done|]. intros i o Hi Hh.
  pose proof (mapM_Some_1 _ _ _ Hb'') as HF''.
  destruct (Forall2_lookup_l _ _ _ _ _ HF'' Hi) as (o'' & Hi'' & Ho'').
  destruct (Hstep o (list_elem_of_lookup_2 _ _ _ Hi)) as [_ Hsame].
  rewrite Hh in Ho''. rewrite (Hsame Hh) in Ho''. congruence.
Qed.

End BundleMore.

(** The facts above on concrete bundles, and the style literal. *)
Section BundleExamples.
Import JS Plugin Build.

Lemma generateBundle_keeps_other_values_witness :
  generateBundle_with "" (appended_compiled "(dispatch)(args)")
    [OutputAsset "index.html" (Text (dquoted "<link rel='stylesheet' href='./a.css'>"));
     OutputAsset "a.css" (Text ".x{color:red}");
     OutputAsset "logo.svg" (Text "<svg/>");
     OutputChunk "main.js" "main" "run()" (Some {["a.css"]})]
  = Some
      [OutputAsset "index.html" (Text "");
       OutputAsset "a.css" (Text ".x{color:red}");
       OutputAsset "logo.svg" (Text "<svg/>");
       OutputChunk "main.js" "main"
         ("run()" +:+ LF +:+ ";(dispatch)(`main`,`.x{color:red}`)") (Some ∅)]
  ∧ css_of
      [OutputAsset "index.html" (Text "");
       OutputAsset "a.css" (Text ".x{color:red}");
       OutputAsset "logo.svg" (Text "<svg/>");
       OutputChunk "main.js" "main"
         ("run()" +:+ LF +:+ ";(dispatch)(`main`,`.x{color:red}`)") (Some ∅)]
    = css_of
        [OutputAsset "index.html" (Text (dquoted "<link rel='stylesheet' href='./a.css'>"));
         OutputAsset "a.css" (Text ".x{color:red}");
         OutputAsset "logo.svg" (Text "<svg/>");
         OutputChunk "main.js" "main" "run()" (Some {["a.css"]})].
Proof.
  assert (H : generateBundle_with "" (appended_compiled "(dispatch)(args)")
    [OutputAsset "index.html" (Text (dquoted "<link rel='stylesheet' href='./a.css'>"));
     OutputAsset "a.css" (Text ".x{color:red}");
     OutputAsset "logo.svg" (Text "<svg/>");
     OutputChunk "main.js" "main" "run()" (Some {["a.css"]})]
  = Some
      [OutputAsset "index.html" (Text "");
       OutputAsset "a.css" (Text ".x{color:red}");
       OutputAsset "logo.svg" (Text "<svg/>");
       OutputChunk "main.js" "main"
         ("run()" +:+ LF +:+ ";(dispatch)(`main`,`.x{color:red}`)") (Some ∅)])
    by (vm_compute; reflexivity).
  split; [exact H|].
  exact (proj1 (proj2 (generateBundle_keeps_other_values _ _ _ _ H))).
Defined.

Lemma generateBundle_again_witness :
  generateBundle_with LF (appended_name "dispatch" "shop")
    [OutputAsset "a.css" (Text ".x{color:red}");
     OutputChunk "main.js" "main" "run()" (Some {["a.css"]})]
  = Some
      [OutputAsset "a.css" (Text ".x{color:red}");
       OutputChunk "main.js" "main"
         ("run()" +:+ LF +:+ LF +:+ ";(dispatch)(`shop`,`main`,`.x{color:red}`)")
         (Some ∅)]
  ∧ ∃ bundle'',
      generateBundle_with LF (appended_name "dispatch" "shop")
        [OutputAsset "a.css" (Text ".x{color:red}");
         OutputChunk "main.js" "main"
           ("run()" +:+ LF +:+ LF +:+ ";(dispatch)(`shop`,`main`,`.x{color:red}`)")
           (Some ∅)]
      = Some bundle''
      ∧ ∀ i o,
          [OutputAsset "a.css" (Text ".x{color:red}");
           OutputChunk "main.js" "main"
             ("run()" +:+ LF +:+ LF +:+ ";(dispatch)(`shop`,`main`,`.x{color:red}`)")
             (Some ∅)] !! i = Some o →
          endsWith (fileName o) ".html" = false → bundle'' !! i = Some o.
Proof.
  assert (H : generateBundle_with LF (appended_name "dispatch" "shop")
    [OutputAsset "a.css" (Text ".x{color:red}");
     OutputChunk "main.js" "main" "run()" (Some {["a.css"]})]
  = Some
      [OutputAsset "a.css" (Text ".x{color:red}");
       OutputChunk "main.js" "main"
         ("run()" +:+ LF +:+ LF +:+ ";(dispatch)(`shop`,`main`,`.x{color:red}`)")
         (Some ∅)])
    by (vm_compute; reflexivity).
  split; [exact H|].
  exact (generateBundle_again _ _ _ _ H).
Defined.

Lemma escape_backticks_value_app (before s t : string) :
  template_plain s →
  template_value (replaceAll_go [Lit "`"] "\`" before 0 s +:+ t)
  = (λ v, s +:+ v) <$> template_value t.
Proof.
  unfold template_plain. revert before.
  induction s as [|c s IH]; intros before Hs.
  { cbn. by destruct (template_value t). }
  rewrite escape_backticks_go. cbn [list_ascii_of_string] in Hs.
  apply Forall_cons in Hs as [(H1 & H2 & H3) Hs].
  specialize (IH (before +:+ String c "") Hs).
  destruct (decide (c = "`"%char)) as [->|Hne].
  - cbn [String.append template_value].
    rewrite decide_False by done. rewrite decide_True by done.
    rewrite IH. by destruct (template_value t).
  - cbn [String.append template_value]. rewrite !decide_False by done.
    rewrite IH. by destruct (template_value t).
Qed.

(** X13. The style of a chunk (src/plugin.ts, [generateBundle]:
    [styles.map(({ source }) => source.toString().trim().replaceAll('`', '\\`')).join(sep)],
    with the separator of either version) between the backticks of the
    appended call: when no trimmed CSS text has a backslash, a dollar or a
    carriage return, the template literal evaluates to the trimmed texts
    joined by the separator, whatever the number of CSS assets and of
    backticks in them. *)
Theorem style_literal_value (css_sep : string) (sources : list string) :
  css_sep = "" ∨ css_sep = LF →
  Forall (λ source, template_plain (trim source)) sources →
  template_value (join css_sep (escape_css <$> sources))
  = Some (join css_sep (trim <$> sources)).
Proof.
  intros Hsep HF.
  assert (Hs : ∀ t, template_value (css_sep +:+ t)
                    = (λ v, css_sep +:+ v) <$> template_value t).
  { intros t. destruct Hsep as [-> | ->].
    - cbn. by destruct (template_value t).
    - cbn. by destruct (template_value t). }
  induction HF as [|x l Hx Hl IH]; [done|].
  destruct l as [|y l].
  - cbn [fmap list_fmap join]. unfold escape_css, replaceAll_str, replaceAll_re.
    rewrite <- (append_nil_r (replaceAll_go _ _ _ _ _)).
    rewrite escape_backticks_value_app by done. cbn. by rewrite append_nil_r.
  - change (join css_sep (escape_css <$> x :: y :: l))
      with (escape_css x +:+ css_sep +:+ join css_sep (escape_css <$> y :: l)).
    change (join css_sep (trim <$> x :: y :: l))
      with (trim x +:+ css_sep +:+ join css_sep (trim <$> y :: l)).
    unfold escape_css at 1. unfold replaceAll_str, replaceAll_re.
    rewrite escape_backticks_value_app by done.
    rewrite Hs, IH. done.
Qed.

Lemma style_literal_value_witness :
  template_value (join LF (escape_css <$> [" .a{content:'`'} "; ".b{}" +:+ LF]))
  = Some (join LF (trim <$> [" .a{content:'`'} "; ".b{}" +:+ LF])).
Proof.
  apply style_literal_value; [by right|].
  repeat constructor; vm_compute; repeat constructor; discriminate.
Defined.

End BundleExamples.

(** ** The plugin's configuration and the package's own build *)

Section BuildFacts.
Import JS Build.

(** *** [mfeBase]: the name comes back from the defined text *)

Lemma literal_body_value_cons (c : ascii) (rest : string) :
  literal_body_value (String c rest)
  = if decide (c = DQ) then
      match rest with EmptyString => Some EmptyString | _ => None end
    else if is_line_terminator c then None
    else if decide (c = "\"%char) then
      match rest with
      | EmptyString => None
      | String d rest' =>
          if decide (d = "u"%char) then
            match rest' with
            | String h1 (String h2 (String h3 (String h4 rest''))) =>
                match hex4_value h1 h2 h3 h4 with
                | Some n =>
                    if (n <? 256)%N
                    then String (ascii_of_N n) <$> literal_body_value rest''
                    else None
                | None => None
                end
            | _ => None
            end
          else
            match escape_value d, literal_body_value rest' with
            | Some v, Some t => Some (v +:+ t)
            | _, _ => None
            end
      end
    else String c <$> literal_body_value rest.
Proof. reflexivity. Qed.

Lemma literal_body_quote_char (c : ascii) (t : string) :
  literal_body_value (quote_char c +:+ t) = String c <$> literal_body_value t.
Proof.
  destruct c as [[] [] [] [] [] [] [] []];
    match goal with
    | |- literal_body_value (quote_char ?c +:+ _) = _ =>
        let q := eval vm_compute in (quote_char c) in
        change (quote_char c) with q
    end;
    cbn [String.append]; rewrite literal_body_value_cons;
    cbv -[literal_body_value]; reflexivity.
Qed.

Lemma literal_body_quote_chars (s : string) :
  literal_body_value (quote_chars s +:+ String DQ "") = Some s.
Proof.
  induction s as [|c s IH]; [done|].
  cbn [quote_chars]. rewrite append_assoc, literal_body_quote_char, IH. done.
Qed.

Lemma string_literal_stringify (s : string) :
  string_literal_value (JSON_stringify s) = Some s.
Proof.
  unfold JSON_stringify, string_literal_value.
  rewrite decide_True by done. apply literal_body_quote_chars.
Qed.

(** X14. [mfeBase] (src/plugin.ts, the [config] hook) defines one token, and
    the text it defines for it, [JSON.stringify(name)], is a string literal
    whose value is the name, whatever characters the name has (quotes,
    backslashes, control characters): [getMfe()] (src/index.ts), compiled
    to that text, returns the name the plugin was given. Two names never
    get the same text. *)
Theorem mfeBase_define_reads_back (token name : string) (port : option N)
    (mode : string) :
  (∃ lit, define (mfeBase token name port mode) = [(token, lit)]
          ∧ string_literal_value lit = Some name)
  ∧ ∀ name', define (mfeBase token name' port mode)
             = define (mfeBase token name port mode) → name' = name.
Proof.
  split.
  - exists (JSON_stringify name). split; [done|]. apply string_literal_stringify.
  - intros name' Heq. cbn in Heq.
    assert (Hlit : JSON_stringify name' = JSON_stringify name) by congruence.
    pose proof (string_literal_stringify name') as H'.
    rewrite Hlit, string_literal_stringify in H'. congruence.
Qed.

(** *** [mfeHtml]: the scripts go before the first [</head>] *)

Lemma substitution_free_cons (c : ascii) (t : string) :
  c ≠ "$"%char → substitution_free t = true → substitution_free (String c t) = true.
Proof.
  intros Hc Ht. destruct t as [|d t]; [done|].
  change (substitution_free (String c (String d t)))
    with (negb (bool_decide (c = "$"%char)
                && (bool_decide (d = "$"%char) || bool_decide (d = "&"%char)
                    || bool_decide (d = "`"%char) || bool_decide (d = "'"%char)))
          && substitution_free (String d t)).
  rewrite Ht. by rewrite (bool_decide_eq_false_2 _ Hc).
Qed.

Lemma substitution_free_app (a : string) (d : ascii) (b : string) :
  d ≠ "$"%char → d ≠ "&"%char → d ≠ "`"%char → d ≠ "'"%char →
  substitution_free a = true → substitution_free (String d b) = true →
  substitution_free (a +:+ String d b) = true.
Proof.
  intros H1 H2 H3 H4 Ha Hb. induction a as [|c a IH]; [done|].
  destruct a as [|c' a].
  - change (substitution_free (String c "" +:+ String d b))
      with (negb (bool_decide (c = "$"%char)
                  && (bool_decide (d = "$"%char) || bool_decide (d = "&"%char)
                      || bool_decide (d = "`"%char) || bool_decide (d = "'"%char)))
            && substitution_free (String d b)).
    rewrite Hb.
    rewrite (bool_decide_eq_false_2 _ H1), (bool_decide_eq_false_2 _ H2),
      (bool_decide_eq_false_2 _ H3), (bool_decide_eq_false_2 _ H4).
    by rewrite andb_false_r.
  - change (substitution_free (String c (String c' a)))
      with (negb (bool_decide (c = "$"%char)
                  && (bool_decide (c' = "$"%char) || bool_decide (c' = "&"%char)
                      || bool_decide (c' = "`"%char) || bool_decide (c' = "'"%char)))
            && substitution_free (String c' a)) in Ha.
    apply andb_true_iff in Ha as [Hc Ha].
    change (substitution_free (String c (String c' a) +:+ String d b))
      with (negb (bool_decide (c = "$"%char)
                  && (bool_decide (c' = "$"%char) || bool_decide (c' = "&"%char)
                      || bool_decide (c' = "`"%char) || bool_decide (c' = "'"%char)))
            && substitution_free (String c' a +:+ String d b)).
    rewrite Hc, (IH Ha). done.
Qed.

Lemma script_tag_free (entry rest : string) :
  substitution_free entry = true → substitution_free rest = true →
  substitution_free (script_tag entry +:+ rest) = true.
Proof.
  intros He Hr. unfold script_tag. rewrite !append_assoc.
  let q := eval vm_compute in (dquoted "'></script>") in
  change (dquoted "'></script>") with q.
  let q := eval vm_compute in (dquoted "<script type='module' src='/") in
  change (dquoted "<script type='module' src='/") with q.
  cbn [String.append].
  repeat (apply substitution_free_cons; [discriminate|]).
  apply substitution_free_app; [discriminate..|exact He|].
  repeat (apply substitution_free_cons; [discriminate|]). exact Hr.
Qed.

Lemma scripts_free (entries : list string) (rest : string) :
  Forall (λ entry, substitution_free entry = true) entries →
  substitution_free rest = true →
  substitution_free (join "" (script_tag <$> entries) +:+ rest) = true.
Proof.
  intros HF Hr. rewrite join_empty_sep.
  induction HF as [|x l Hx Hl IH]; [done|].
  change (Spec.concat_texts (script_tag <$> x :: l))
    with (script_tag x +:+ Spec.concat_texts (script_tag <$> l)).
  rewrite append_assoc. by apply script_tag_free.
Qed.

(** X15. [mfeHtml] of the previous version (src/plugin.ts):
    [indexHtmlTemplate.replace('</head>', `${scripts.join('')}</head>`)].
    A template without [</head>] is served as it is, without any entry
    script. Otherwise the script tags of the entries, in the order of
    [Object.values], are put right before the first [</head>] of the
    template and the rest is kept, provided no entry path holds one of the
    replacement patterns [$$], [$&], [$`] and [$']. *)
Theorem indexHtml_injects_scripts (indexHtmlTemplate : string) (entries : jsobj) :
  (indexOf "</head>" indexHtmlTemplate = None →
   indexHtml indexHtmlTemplate entries = indexHtmlTemplate)
  ∧ ∀ pre post,
      indexHtmlTemplate = pre +:+ "</head>" +:+ post →
      indexOf "</head>" indexHtmlTemplate = Some (String.length pre) →
      Forall (λ entry, substitution_free entry = true) (Object_values entries) →
      indexHtml indexHtmlTemplate entries
      = pre +:+ join "" (script_tag <$> Object_values entries) +:+ "</head>" +:+ post.
Proof.
  split.
  - intros Hi. by apply replace_re_absent.
  - intros pre post -> Hi HF. unfold indexHtml, replace_str, replace_re.
    rewrite (search_first_occurrence "</head>" [] "" pre _ "</head>" post Hi)
      by (cbn [match_here]; by rewrite strip_prefix_app).
    rewrite GetSubstitution_free by (by apply scripts_free).
    cbn [String.append]. by rewrite append_assoc.
Qed.

Lemma indexHtml_injects_scripts_witness :
  indexHtml "<head><title>shop</title></head><body></head></body>"
    [("main", "src/main.ts"); ("2", "src/cart.ts")]
  = "<head><title>shop</title>"
    +:+ join "" (script_tag <$> Object_values [("main", "src/main.ts"); ("2", "src/cart.ts")])
    +:+ "</head>" +:+ "<body></head></body>".
Proof.
  apply (proj2 (indexHtml_injects_scripts
                  "<head><title>shop</title></head><body></head></body>"
                  [("main", "src/main.ts"); ("2", "src/cart.ts")])
           "<head><title>shop</title>" "<body></head></body>").
  - reflexivity.
  - vm_compute. reflexivity.
  - vm_compute. repeat constructor.
Defined.

(** *** [keepEnv]: the second plugin undoes the first *)

Lemma replaceAll_go_before (re : regex) (replacement b b' : string) (skip : nat)
    (s : string) :
  substitution_free replacement = true →
  replaceAll_go re replacement b skip s = replaceAll_go re replacement b' skip s.
Proof.
  intros Hfree. revert b b' skip.
  induction s as [|c s IH]; intros b b' skip; [done|].
  cbn [replaceAll_go]. destruct skip as [|n]; [|apply IH].
  destruct (match_here re (String c s)) as [[m rest]|].
  - rewrite !GetSubstitution_free by done.
    destruct (String.length m); f_equal; [f_equal|]; apply IH.
  - f_equal. apply IH.
Qed.

Lemma replaceAll_go_skip (re : regex) (replacement b b' x rest : string) :
  substitution_free replacement = true →
  replaceAll_go re replacement b (String.length x) (x +:+ rest)
  = replaceAll_go re replacement b' 0 rest.
Proof.
  intros Hfree. revert b.
  induction x as [|c x IH]; intros b; [by apply replaceAll_go_before|].
  cbn [String.length String.append replaceAll_go]. apply IH.
Qed.

Lemma replaceAll_literal_unfold (l replacement s : string) :
  l ≠ "" → substitution_free replacement = true →
  replaceAll_str l replacement s
  = match strip_prefix l s with
    | Some rest => replacement +:+ replaceAll_str l replacement rest
    | None =>
        match s with
        | EmptyString => EmptyString
        | String c s' => String c (replaceAll_str l replacement s')
        end
    end.
Proof.
  intros Hl Hfree. unfold replaceAll_str, replaceAll_re.
  destruct s as [|c s].
  { destruct l; [done|]. done. }
  cbn [replaceAll_go match_here].
  destruct (strip_prefix l (String c s)) as [rest|] eqn:E.
  - rewrite GetSubstitution_free by done. f_equal.
    destruct l as [|a l]; [done|].
    cbn [strip_prefix] in E. destruct (decide (a = c)) as [->|]; [|done].
    apply strip_prefix_Some in E as ->.
    rewrite append_nil_r. cbn [String.length].
    by apply replaceAll_go_skip.
  - f_equal. by apply replaceAll_go_before.
Qed.

Lemma keepEnv_pre_unfold (s : string) :
  keepEnv_pre s
  = match strip_prefix "import.meta.env" s with
    | Some rest => "_import.meta.env" +:+ keepEnv_pre rest
    | None =>
        match s with
        | EmptyString => EmptyString
        | String c s' => String c (keepEnv_pre s')
        end
    end.
Proof. by apply replaceAll_literal_unfold. Qed.

Lemma keepEnv_post_unfold (s : string) :
  keepEnv_post s
  = match strip_prefix "_import.meta.env" s with
    | Some rest => "import.meta.env" +:+ keepEnv_post rest
    | None =>
        match s with
        | EmptyString => EmptyString
        | String c s' => String c (keepEnv_post s')
        end
    end.
Proof. by apply replaceAll_literal_unfold. Qed.

(** A text without underscore that starts the output of the first plugin
    starts its input. *)
Lemma keepEnv_pre_prefix (q t : string) :
  Forall (λ c, c ≠ "_"%char) (list_ascii_of_string q) →
  is_Some (strip_prefix q (keepEnv_pre t)) → is_Some (strip_prefix q t).
Proof.
  revert t. induction q as [|e q IH]; intros t Hq H; [by eexists|].
  cbn [list_ascii_of_string] in Hq. apply Forall_cons in Hq as [He Hq].
  rewrite keepEnv_pre_unfold in H.
  destruct (strip_prefix "import.meta.env" t) as [rest|] eqn:E.
  - change ("_import.meta.env" +:+ keepEnv_pre rest)
      with (String "_" ("import.meta.env" +:+ keepEnv_pre rest)) in H.
    cbn [strip_prefix] in H. rewrite decide_False in H by done.
    by destruct H.
  - destruct t as [|d t]; [by destruct H|].
    cbn [strip_prefix] in H |- *.
    destruct (decide (e = d)) as [->|]; [|by destruct H].
    by apply IH.
Qed.

Lemma keepEnv_pre_no_token_first (t : string) :
  strip_prefix "import.meta.env" (keepEnv_pre t) = None.
Proof.
  destruct (strip_prefix "import.meta.env" (keepEnv_pre t)) as [r|] eqn:E; [|done].
  exfalso.
  destruct (keepEnv_pre_prefix "import.meta.env" t) as [rest E'].
  { cbn. repeat constructor; discriminate. }
  { by rewrite E. }
  rewrite keepEnv_pre_unfold, E' in E.
  change ("_import.meta.env" +:+ keepEnv_pre rest)
    with (String "_" ("import.meta.env" +:+ keepEnv_pre rest)) in E.
  cbn [strip_prefix] in E. by rewrite decide_False in E.
Qed.

Lemma strip_prefix_cons (a : ascii) (l : string) (c : ascii) (s : string) :
  strip_prefix (String a l) (String c s)
  = if decide (a = c) then strip_prefix l s else None.
Proof. done. Qed.

Lemma keepEnv_round_trip_bounded (n : nat) (code : string) :
  String.length code ≤ n → keepEnv_post (keepEnv_pre code) = code.
Proof.
  revert code. induction n as [|n IH]; intros code Hlen.
  { destruct code; [done|]. cbn in Hlen. lia. }
  rewrite keepEnv_pre_unfold.
  destruct (strip_prefix "import.meta.env" code) as [rest|] eqn:E.
  - apply strip_prefix_Some in E.
    rewrite keepEnv_post_unfold, strip_prefix_app.
    rewrite IH; [by rewrite E|].
    apply (f_equal String.length) in E. rewrite append_length in E.
    cbn [String.length] in E. lia.
  - destruct code as [|c s]; [done|].
    rewrite keepEnv_post_unfold.
    change "_import.meta.env" with (String "_" "import.meta.env").
    rewrite strip_prefix_cons.
    destruct (decide ("_"%char = c)) as [<-|].
    + rewrite keepEnv_pre_no_token_first. f_equal. apply IH.
      cbn [String.length] in Hlen. lia.
    + f_equal. apply IH. cbn [String.length] in Hlen. lia.
Qed.

Lemma append_split (l x pre y : string) :
  l +:+ x = pre +:+ y →
  (∃ k, pre = l +:+ k ∧ x = k +:+ y)
  ∨ (∃ l2, l = pre +:+ l2 ∧ l2 ≠ "" ∧ y = l2 +:+ x).
Proof.
  revert pre. induction l as [|a l IH]; intros pre H.
  { left. by exists pre. }
  destruct pre as [|c pre].
  { right. exists (String a l). split_and!; [done|done|]. symmetry. exact H. }
  cbn [String.append] in H. injection H as -> H.
  destruct (IH _ H) as [(k & -> & ->)|(l2 & -> & Hl2 & ->)].
  - left. by exists k.
  - right. by exists l2.
Qed.

Lemma underscore_token_split (l1 l2 : string) :
  "_import.meta.env" = l1 +:+ String "i" l2 → l1 = "_".
Proof.
  intros H.
  destruct l1 as [|c l1]; [discriminate|].
  cbn [String.append] in H. injection H as Hc H. subst c.
  destruct l1 as [|c l1]; [done|]. exfalso.
  repeat (cbn [String.append] in H; injection H as Hc H; subst c;
          destruct l1 as [|c l1]; [discriminate|]).
  discriminate.
Qed.

Lemma keepEnv_pre_occurrence_bounded (n : nat) (code pre post : string) :
  String.length code ≤ n →
  keepEnv_pre code = pre +:+ "import.meta.env" +:+ post →
  ∃ pre', pre = pre' +:+ "_".
Proof.
  revert code pre. induction n as [|n IH]; intros code pre Hlen H.
  { destruct code; [|cbn in Hlen; lia]. by destruct pre. }
  rewrite keepEnv_pre_unfold in H.
  destruct (strip_prefix "import.meta.env" code) as [rest|] eqn:E.
  - apply strip_prefix_Some in E.
    assert (Hrest : String.length rest ≤ n).
    { apply (f_equal String.length) in E. rewrite append_length in E.
      cbn [String.length] in E. lia. }
    apply append_split in H as [(k & -> & Hk)|(l2 & Hl & Hl2 & Hy)].
    + destruct (IH _ _ Hrest Hk) as [pre' ->].
      exists ("_import.meta.env" +:+ pre'). by rewrite append_assoc.
    + destruct l2 as [|a l2]; [done|].
      cbn [String.append] in Hy. injection Hy as <- _.
      apply underscore_token_split in Hl as ->. by exists "".
  - destruct code as [|c s]; [by destruct pre|].
    destruct pre as [|a pre].
    + pose proof (keepEnv_pre_no_token_first (String c s)) as Hno.
      rewrite keepEnv_pre_unfold, E in Hno.
      change (String c (keepEnv_pre s) = "import.meta.env" +:+ post) in H.
      rewrite H in Hno.
      by rewrite (strip_prefix_app "import.meta.env") in Hno.
    + cbn [String.append] in H. injection H as -> H.
      destruct (IH s pre) as [pre' ->]; [cbn [String.length] in Hlen; lia|done|].
      by exists (String a pre').
Qed.

(** X16. The two [keepEnv] plugins of the package's own build
    (vite.config.ts): what the [post] plugin makes of the output of the
    [pre] plugin is the code the [pre] plugin was given, whatever the code,
    also when it holds [_import.meta.env] already or overlapping pieces of
    the token. In between, every [import.meta.env] of the code stands right
    behind an underscore. *)
Theorem keepEnv_round_trip (code : string) :
  keepEnv_post (keepEnv_pre code) = code
  ∧ ∀ pre post,
      keepEnv_pre code = pre +:+ "import.meta.env" +:+ post →
      ∃ pre', pre = pre' +:+ "_".
Proof.
  split; [by apply (keepEnv_round_trip_bounded (String.length code))|].
  intros pre post. by apply (keepEnv_pre_occurrence_bounded (String.length code)).
Qed.

End BuildFacts.
